(** * lidar_processor: gap filling and edge extraction on occupancy grids

    A shallow embedding of [server/python/lidar_processor.py].  The two
    functions of the file, [process_map] and [canny], are translated line by
    line; the OpenCV and NumPy primitives they call are modelled by their
    documented behaviour on single-channel 8-bit images (module [cv2] and
    module [np] below), except for the edge-detection primitives, which are
    kept abstract (record [cv2_edges]).

    Images are rows of pixels, [list (list Z)], row-major like a NumPy array
    of shape (H, W); an 8-bit pixel is an integer in 0..255.  The file
    system is an environment, record [world]: it says which directories can
    be made and what [cv2.imread] decodes, a single-channel 8-bit image or
    another array, which the pipeline refuses.  The script around the two
    functions (the names of the files and the two files written) is embedded
    over it.

    The file first gives the embedding, then its properties: the array
    lemmas, the loop of the gap-fill stage pixel by pixel, the correctness
    of the component labelling, the properties of the specification, each
    marked with its number (C1 to C10), and further properties of the code
    (X1 to X12). *)

From Stdlib Require Import ZArith Lia Ascii.
From stdpp Require Import base tactics option list numbers sorting relations strings.

Abbreviation grid := (list (list Z)).
Abbreviation label_grid := (list (list nat)).
(** A three-channel image: every pixel is a (B, G, R) triple. *)
Abbreviation bgr_grid := (list (list (Z * Z * Z))).

(** ** Shapes and pixel access *)

(** The row-length profile of an image; two arrays have the same shape
    exactly when their profiles agree. *)
Definition dims {A} (g : list (list A)) : list nat := length <$> g.

(** [rect h w g]: [g] is a well-formed H x W array. *)
Definition rect {A} (h w : nat) (g : list (list A)) : Prop :=
  dims g = replicate h w.

(** NumPy's [img.shape] for a two-dimensional array. *)
Definition shape {A} (g : list (list A)) : nat * nat :=
  (length g, length (hd [] g)).

(** [g[y, x]], [None] outside the array. *)
Definition pixel {A} (g : list (list A)) (y x : nat) : option A :=
  g !! y ≫= (.!! x).

(** The same with signed coordinates, as the neighbourhood operations
    compute them. *)
Definition pixelZ {A} (g : list (list A)) (y x : Z) : option A :=
  if bool_decide (0 ≤ y ∧ 0 ≤ x)%Z then pixel g (Z.to_nat y) (Z.to_nat x)
  else None.

(** Pointwise map over a two-dimensional array, with the coordinates. *)
Definition gmapi {A B} (f : nat → nat → A → B) (g : list (list A))
  : list (list B) :=
  imap (λ y row, imap (λ x v, f y x v) row) g.

Definition OCCUPIED : Z := 255.
Definition FREE : Z := 0.

(** A binary grid holds only the two occupancy values. *)
Definition binary (g : grid) : Prop :=
  Forall (Forall (λ v, v = FREE ∨ v = OCCUPIED)) g.

(** ** Python built-ins *)

Module py.

(** [range(start, stop, step)] for a positive step: the values
    [start + i*step] below [stop]. *)
Definition range3 (start stop step : Z) : list Z :=
  (λ i, start + Z.of_nat i * step)%Z
    <$> seq 0 (Z.to_nat ((stop - start + step - 1) `div` step)).

(** [range(start, stop)]. *)
Definition range (start stop : Z) : list Z := range3 start stop 1.

(** [for x in xs: s = body(x, s); if brk(x): break]. *)
Fixpoint for_break {S} (brk : Z → bool) (body : Z → S → S)
    (xs : list Z) (s : S) : S :=
  match xs with
  | [] => s
  | x :: xs' =>
      let s' := body x s in
      if brk x then s' else for_break brk body xs' s'
  end.

(** [for x in xs: s = body(x, s)]. *)
Fixpoint for_each {S} (body : Z → S → S) (xs : list Z) (s : S) : S :=
  match xs with
  | [] => s
  | x :: xs' => for_each body xs' (body x s)
  end.

End py.

(** ** NumPy *)

Module np.

(** [np.ones((rows, cols), np.uint8)]. *)
Definition ones (rows cols : Z) : grid :=
  replicate (Z.to_nat rows) (replicate (Z.to_nat cols) 1%Z).

(** [(labels == i).astype(np.uint8) * 255]. *)
Definition eq_mask (labels : label_grid) (i : nat) : grid :=
  fmap (M := list) (λ l, if bool_decide (l = i) then 255%Z else 0%Z) <$> labels.

End np.

(** ** OpenCV primitives on single-channel 8-bit images *)

Module cv2.

(** [cv2.bitwise_not]: every bit of the 8-bit pixel is flipped. *)
Definition bitwise_not (src : grid) : grid :=
  fmap (M := list) (λ v, Z.lxor v 255) <$> src.

(** [cv2.bitwise_and] and [cv2.bitwise_or] of two arrays of one shape (the
    library rejects arrays of different shapes; every call of the source is
    on arrays of one shape, see [same_dims_filled_gaps] and
    [dims_fill_component]). *)
Definition bitwise_and (a b : grid) : grid := zip_with (zip_with Z.land) a b.
Definition bitwise_or (a b : grid) : grid := zip_with (zip_with Z.lor) a b.

(** [cv2.threshold(src, thresh, maxval, cv2.THRESH_BINARY_INV)]: a pixel
    above [thresh] becomes 0, every other pixel becomes [maxval].  The
    function returns the threshold with the image. *)
Definition threshold_BINARY_INV (src : grid) (thresh maxval : Z) : Z * grid :=
  (thresh,
   fmap (M := list) (λ v, if bool_decide (v > thresh)%Z then 0%Z else maxval)
     <$> src).

(** The offsets, relative to the anchor, of the non-zero elements of a
    structuring element; the default anchor is the centre
    [(cols / 2, rows / 2)]. *)
Definition kernel_offsets (kernel : grid) : list (Z * Z) :=
  let anchor_y := (Z.of_nat (length kernel) `div` 2)%Z in
  let anchor_x := (Z.of_nat (length (hd [] kernel)) `div` 2)%Z in
  concat (imap (λ i row,
    concat (imap (λ j e,
      if bool_decide (e = 0%Z) then []
      else [((Z.of_nat i - anchor_y)%Z, (Z.of_nat j - anchor_x)%Z)]) row))
    kernel).

(** The pixels of [src] under the structuring element placed at [(y, x)];
    positions outside the image are left out, which is what the default
    border value of the morphological operations amounts to. *)
Definition window (src : grid) (offs : list (Z * Z)) (y x : nat) : list Z :=
  omap (λ '(dy, dx), pixelZ src (Z.of_nat y + dy) (Z.of_nat x + dx)) offs.

(** [cv2.dilate(src, kernel, iterations=1)]: the maximum under the
    structuring element. *)
Definition dilate (src kernel : grid) : grid :=
  let offs := kernel_offsets kernel in
  gmapi (λ y x _, foldr Z.max 0%Z (window src offs y x)) src.

(** [cv2.erode(src, kernel, iterations=1)]: the minimum under the
    structuring element. *)
Definition erode (src kernel : grid) : grid :=
  let offs := kernel_offsets kernel in
  gmapi (λ y x _, foldr Z.min 255%Z (window src offs y x)) src.

(** [cv2.morphologyEx(src, cv2.MORPH_CLOSE, kernel, iterations=1)]:
    dilation followed by erosion. *)
Definition morphologyEx_CLOSE (src kernel : grid) : grid :=
  erode (dilate src kernel) kernel.

(** [cv2.medianBlur(src, ksize)]: the median of the ksize x ksize
    neighbourhood, the border pixels replicated. *)
Definition clamp (n : nat) (i : Z) : nat :=
  Z.to_nat (Z.max 0 (Z.min i (Z.of_nat n - 1))).

Definition square_offsets (ksize : Z) : list (Z * Z) :=
  let r := (ksize `div` 2)%Z in
  dy ← py.range (- r) (r + 1); dx ← py.range (- r) (r + 1); [(dy, dx)].

Definition median (vs : list Z) : Z :=
  nth (length vs `div` 2) (merge_sort Z.le vs) 0%Z.

Definition medianBlur (src : grid) (ksize : Z) : grid :=
  let offs := square_offsets ksize in
  gmapi (λ y x _,
    median (omap (λ '(dy, dx),
      pixel src (clamp (length src) (Z.of_nat y + dy))
                (clamp (length (hd [] src)) (Z.of_nat x + dx))) offs)) src.

(** [cv2.cvtColor(src, cv2.COLOR_GRAY2BGR)]: the grey value in each of the
    three channels. *)
Definition cvtColor_GRAY2BGR (src : grid) : bgr_grid :=
  fmap (M := list) (λ v, (v, v, v)) <$> src.

(** *** Connected components *)

(** One row of the statistics array of
    [cv2.connectedComponentsWithStats]. *)
Record cc_stat := {
  CC_STAT_LEFT : Z;
  CC_STAT_TOP : Z;
  CC_STAT_WIDTH : Z;
  CC_STAT_HEIGHT : Z;
  CC_STAT_AREA : Z
}.

#[global] Instance cc_stat_inhabited : Inhabited cc_stat :=
  populate {| CC_STAT_LEFT := 0; CC_STAT_TOP := 0; CC_STAT_WIDTH := 0;
              CC_STAT_HEIGHT := 0; CC_STAT_AREA := 0 |}.

(** The eight neighbours of a pixel. *)
Definition neighbours8 (y x : Z) : list (Z * Z) :=
  [(y - 1, x - 1); (y - 1, x); (y - 1, x + 1);
   (y, x - 1); (y, x + 1);
   (y + 1, x - 1); (y + 1, x); (y + 1, x + 1)]%Z.

Definition set_label (labels : label_grid) (y x l : nat) : label_grid :=
  alter (λ row, <[x := l]> row) y labels.

(** Flood fill from a work list: every non-zero, still unlabelled pixel
    reached through 8-neighbours gets label [l]. *)
Fixpoint flood (fuel : nat) (image : grid) (labels : label_grid) (l : nat)
    (work : list (Z * Z)) : label_grid :=
  match fuel with
  | O => labels
  | S fuel =>
      match work with
      | [] => labels
      | (y, x) :: work =>
          match pixelZ image y x, pixelZ labels y x with
          | Some v, Some O =>
              if bool_decide (v = 0%Z) then flood fuel image labels l work
              else flood fuel image
                     (set_label labels (Z.to_nat y) (Z.to_nat x) l) l
                     (neighbours8 y x ++ work)
          | _, _ => flood fuel image labels l work
          end
      end
  end.

(** All pixel coordinates in raster order. *)
Definition raster {A} (g : list (list A)) : list (nat * nat) :=
  concat (imap (λ y row, imap (λ x _, (y, x)) row) g).

Definition area {A} (g : list (list A)) : nat := length (raster g).

(** Raster scan: a non-zero pixel without a label starts a new component. *)
Definition label_from (image : grid) (st : label_grid * nat) (p : nat * nat)
  : label_grid * nat :=
  let '(labels, next) := st in
  let '(y, x) := p in
  match pixel image y x, pixel labels y x with
  | Some v, Some O =>
      if bool_decide (v = 0%Z) then st
      else (flood (9 * area image + 1) image labels next
              [(Z.of_nat y, Z.of_nat x)], S next)
  | _, _ => st
  end.

Definition label_components (image : grid) : label_grid * nat :=
  foldl (label_from image) (fmap (M := list) (λ _, O) <$> image, 1)
        (raster image).

(** The pixels carrying label [l]. *)
Definition cells_of (labels : label_grid) (l : nat) : list (nat * nat) :=
  concat (imap (λ y row,
    concat (imap (λ x v, if bool_decide (v = l) then [(y, x)] else []) row))
    labels).

(** Bounding box and area of the pixels carrying label [l]. *)
Definition stat_of (labels : label_grid) (l : nat) : cc_stat :=
  let cs := cells_of labels l in
  let ys := (λ p, Z.of_nat p.1) <$> cs in
  let xs := (λ p, Z.of_nat p.2) <$> cs in
  let top := foldr Z.min (Z.of_nat (length labels)) ys in
  let left := foldr Z.min (Z.of_nat (length (hd [] labels))) xs in
  let bottom := foldr Z.max (-1)%Z ys in
  let right := foldr Z.max (-1)%Z xs in
  {| CC_STAT_LEFT := left; CC_STAT_TOP := top;
     CC_STAT_WIDTH := Z.max 0 (right - left + 1);
     CC_STAT_HEIGHT := Z.max 0 (bottom - top + 1);
     CC_STAT_AREA := Z.of_nat (length cs) |}.

(** [cv2.connectedComponentsWithStats(image, connectivity=8)]: the number of
    labels (background included), the label of every pixel (0 for a zero
    pixel) and the statistics of every label.  The centroids, the fourth
    result, are never read by the source and are left out. *)
Definition connectedComponentsWithStats (image : grid)
  : Z * label_grid * list cc_stat :=
  let '(labels, num_labels) := label_components image in
  (Z.of_nat num_labels, labels, stat_of labels <$> seq 0 num_labels).

End cv2.

(** ** Effects of the script: console output and exceptions *)

(** The exceptions a run can end with: [OSError] from [Path.mkdir],
    [FileNotFoundError] from line 25, [ZeroDivisionError] from the division
    of line 40, and [cv2.error] from an OpenCV call that refuses its
    argument. *)
Inductive exn :=
  | OSError
  | FileNotFoundError
  | ZeroDivisionError
  | cv2_error.

(** The lines the two functions print in debug mode; [img.shape] is a tuple
    of two numbers for a single-channel image and of three for an image with
    channels. *)
Inductive message :=
  | Loaded_image_with_shape (s : list nat)
  | Detected_lines (n : nat)
  | No_lines_detected.

(** A computation prints messages and then returns or raises. *)
Definition io (A : Type) : Type := list message * (exn + A).

#[global] Instance io_ret : MRet io := λ A a, ([], inr a).
#[global] Instance io_bind : MBind io := λ A B f m,
  match m with
  | (out, inl e) => (out, inl e)
  | (out, inr a) => let '(out', r) := f a in (out ++ out', r)
  end.

Definition print (m : message) : io unit := ([m], inr tt).
Definition raise {A} (e : exn) : io A := ([], inl e).

(** What was printed, and what was returned. *)
Definition printed {A} (m : io A) : list message := m.1.
Definition returned {A} (m : io A) : exn + A := m.2.

(** [int(a / b)] on Python integers: true division, then truncation towards
    zero; division by zero raises. *)
Definition int_truediv (a b : Z) : io Z :=
  if bool_decide (b = 0%Z) then raise ZeroDivisionError
  else mret (a `quot` b)%Z.

(** ** The images and the file system

    An image as the two functions pass it on and write it: [len(img.shape)]
    is 2 for a grey image and 3 for a colour image. *)
Inductive image :=
  | Gray (g : grid)
  | Color (c : bgr_grid).

(** What [cv2.imread(path, cv2.IMREAD_UNCHANGED)] decodes.  The flag keeps
    the channels and the depth of the file, so the array is a single-channel
    8-bit image, or another array: a colour image, an image with an alpha
    channel, a 16-bit image.  The filtering, the thresholding and the
    closing (lines 30 to 37) work channel by channel, but
    [cv2.connectedComponentsWithStats] takes single-channel 8-bit images
    only: another array makes an OpenCV call raise [cv2.error] at line 42
    at the latest.  Such an array is given by its shape and by whether it
    gets as far as line 40, as an 8-bit colour image does. *)
Inductive decoded :=
  | Gray8 (g : grid)
  | Other_array (shape : list nat) (reaches_line_40 : bool).

(** [img.shape]. *)
Definition decoded_shape (img : decoded) : list nat :=
  match img with
  | Gray8 g => [(shape g).1; (shape g).2]
  | Other_array shape _ => shape
  end.

(** What a run does to the console and to the file system, in order. *)
Inductive effect {dir : Type} :=
  | Mkdir (d : dir)
  | Print (m : message)
  | Print_processed_saved (p : dir * string)
  | Print_edges_saved (p : dir * string)
  | Imwrite (p : dir * string) (img : image).
Arguments effect : clear implicits.

(** The environment of a run: [Path(s).parent], [Path(s).name] and
    [Path(s)] for the strings of the command line, whether
    [mkdir(parents=True, exist_ok=True)] succeeds, and [cv2.imread], [None]
    when the file cannot be read or decoded. *)
Record world {dir : Type} := {
  Path_parent : string → dir;
  Path_name : string → string;
  Path_dir : string → dir;
  mkdir : dir → bool;
  imread : string → option decoded
}.
Arguments world : clear implicits.

(** A function of the script acts on the environment and then returns or
    raises. *)
Definition script (dir A : Type) : Type := list (effect dir) * (exn + A).

(** ** process_map *)

(** The constants at the head of [process_map]. *)
Record constants := {
  median_kernel : Z;
  morph_kernel : Z;
  MAX_GAP_SIZE : Z;
  RESOLUTION_CM_PER_PIXEL : Z
}.

Definition source_constants : constants :=
  {| median_kernel := 3; morph_kernel := 5;
     MAX_GAP_SIZE := 20; RESOLUTION_CM_PER_PIXEL := 5 |}.

(** Lines 58 to 68, the body of the loop over the components of one sweep:
    a component within the size bound is or-ed into the result. *)
Definition fill_component (MAX_GAP_PIXELS : Z) (gap_labels : label_grid)
    (gap_stats : list cv2.cc_stat) (i : Z) (result : grid) : grid :=
  let gap_width := cv2.CC_STAT_WIDTH (gap_stats !!! Z.to_nat i) in
  let gap_height := cv2.CC_STAT_HEIGHT (gap_stats !!! Z.to_nat i) in
  let gap_area := cv2.CC_STAT_AREA (gap_stats !!! Z.to_nat i) in
  let max_dimension := Z.max gap_width gap_height in
  if bool_decide (max_dimension ≤ MAX_GAP_PIXELS)%Z
     && bool_decide (gap_area ≤ MAX_GAP_PIXELS ^ 2)%Z
  then
    let gap_mask := np.eq_mask gap_labels (Z.to_nat i) in
    cv2.bitwise_or result gap_mask
  else result.

(** Lines 48 to 51: the candidate cells of one kernel size, the cells the
    dilation of [inverted] reaches outside [inverted]. *)
Definition candidate_gaps (c : constants) (inverted : grid) (kernel_size : Z)
  : grid :=
  let kernel := np.ones kernel_size (morph_kernel c) in
  let dilated := cv2.dilate inverted kernel in
  cv2.bitwise_and dilated (cv2.bitwise_not inverted).

(** Lines 48 to 68, the body of the loop over the kernel sizes: the
    components of the candidate cells, each put to the test of line 65. *)
Definition sweep_step (c : constants) (MAX_GAP_PIXELS : Z) (inverted : grid)
    (kernel_size : Z) (result : grid) : grid :=
  let filled_gaps := candidate_gaps c inverted kernel_size in
  let '(num_gaps, gap_labels, gap_stats) :=
    cv2.connectedComponentsWithStats filled_gaps in
  py.for_each (fill_component MAX_GAP_PIXELS gap_labels gap_stats)
    (py.range 1 num_gaps) result.

(** The kernel sizes of line 47 and the test of line 70. *)
Definition kernel_sizes (MAX_GAP_PIXELS : Z) : list Z :=
  py.range3 3 (MAX_GAP_PIXELS * 2 + 1) 2.

Definition bound_reached (MAX_GAP_PIXELS kernel_size : Z) : bool :=
  bool_decide (kernel_size >= MAX_GAP_PIXELS * 2)%Z.

(** Lines 41 to 73, the gap-fill stage once the bound in pixels is known.
    The components of [inverted] computed at lines 42 to 44 are not read
    again. *)
Definition fill_gaps_px (c : constants) (MAX_GAP_PIXELS : Z)
    (binary_clean : grid) : grid :=
  let inverted := cv2.bitwise_not binary_clean in
  let components := cv2.connectedComponentsWithStats inverted in
  let result := inverted in
  let result :=
    py.for_break (bound_reached MAX_GAP_PIXELS)
      (sweep_step c MAX_GAP_PIXELS inverted)
      (kernel_sizes MAX_GAP_PIXELS) result in
  let IMAGE_clean := cv2.bitwise_not result in
  IMAGE_clean.

(** Lines 40 to 73, the gap-fill stage. *)
Definition fill_gaps (c : constants) (binary_clean : grid) : io grid :=
  MAX_GAP_PIXELS ← int_truediv (MAX_GAP_SIZE c) (RESOLUTION_CM_PER_PIXEL c);
  mret (fill_gaps_px c MAX_GAP_PIXELS binary_clean).

(** Lines 30 to 37: denoising, thresholding and closing. *)
Definition binarize (img_blur : grid) : grid :=
  (cv2.threshold_BINARY_INV img_blur 1 255).2.

Definition close_binary (c : constants) (binary : grid) : grid :=
  let kernel := np.ones (median_kernel c) (morph_kernel c) in
  cv2.morphologyEx_CLOSE binary kernel.

(** Lines 23 to 75 of [process_map] for the constants [c]: what the
    function does with the result of [cv2.imread] once the output directory
    is made. *)
Definition process_image (c : constants) (img : option decoded)
    (debug : bool) : io grid :=
  match img with
  | None => raise FileNotFoundError
  | Some img =>
      (if debug then print (Loaded_image_with_shape (decoded_shape img))
       else mret tt) ;;
      match img with
      | Gray8 img =>
          let img_blur := cv2.medianBlur img (median_kernel c) in
          let binary := binarize img_blur in
          let binary_clean := close_binary c binary in
          fill_gaps c binary_clean
      | Other_array _ reaches_line_40 =>
          if reaches_line_40 then
            MAX_GAP_PIXELS ←
              int_truediv (MAX_GAP_SIZE c) (RESOLUTION_CM_PER_PIXEL c);
            raise cv2_error
          else raise cv2_error
      end
  end.

(** Lines 14 to 18: the directory [process_map] makes. *)
Definition output_directory {dir} (w : world dir) (input_path : string)
    (output_dir : option string) : dir :=
  match output_dir with
  | None => Path_parent w input_path
  | Some s => Path_dir w s
  end.

(** [process_map] for the constants [c], lines 14 to 75: the output
    directory is made before the image is read. *)
Definition process_map_with {dir} (c : constants) (w : world dir)
    (input_path : string) (output_dir : option string) (debug : bool)
  : script dir grid :=
  let output_dir := output_directory w input_path output_dir in
  if mkdir w output_dir then
    let '(printed, result) := process_image c (imread w input_path) debug in
    (Mkdir output_dir :: (Print <$> printed), result)
  else ([Mkdir output_dir], inl OSError).

Definition process_map {dir}
  : world dir → string → option string → bool → script dir grid :=
  process_map_with source_constants.

(** The output directory can be made and the file decodes to the
    single-channel 8-bit image [img]. *)
Definition loads {dir} (w : world dir) (input_path : string)
    (output_dir : option string) (img : grid) : Prop :=
  mkdir w (output_directory w input_path output_dir) = true
  ∧ imread w input_path = Some (Gray8 img).

(** The same loop as in [fill_gaps_px] with the test of line 70 and its
    [break] removed. *)
Definition fill_gaps_px_no_break (c : constants) (MAX_GAP_PIXELS : Z)
    (binary_clean : grid) : grid :=
  let inverted := cv2.bitwise_not binary_clean in
  let result := inverted in
  let result :=
    py.for_each (sweep_step c MAX_GAP_PIXELS inverted)
      (kernel_sizes MAX_GAP_PIXELS) result in
  cv2.bitwise_not result.

(** The kernels the loop of line 47 builds, in the order it builds them:
    the loop run on a log instead of the image. *)
Definition kernels_evaluated (c : constants) (MAX_GAP_PIXELS : Z)
  : list (Z * Z) :=
  py.for_break (bound_reached MAX_GAP_PIXELS)
    (λ kernel_size log, log ++ [(kernel_size, morph_kernel c)])
    (kernel_sizes MAX_GAP_PIXELS) [].

(** *** The size gate read off the loop

    The test of line 65 on the statistics of one component. *)
Definition passes_gate (MAX_GAP_PIXELS : Z) (s : cv2.cc_stat) : bool :=
  bool_decide (Z.max (cv2.CC_STAT_WIDTH s) (cv2.CC_STAT_HEIGHT s)
               ≤ MAX_GAP_PIXELS)%Z
  && bool_decide (cv2.CC_STAT_AREA s ≤ MAX_GAP_PIXELS ^ 2)%Z.

(** At kernel size [kernel_size], the pixel [(y, x)] lies in a component of
    the candidate cells, one of the labels [1 .. num_gaps - 1], that passes
    the test. *)
Definition gated (c : constants) (MAX_GAP_PIXELS : Z) (inverted : grid)
    (kernel_size : Z) (y x : nat) : bool :=
  let '(num_gaps, gap_labels, gap_stats) :=
    cv2.connectedComponentsWithStats
      (candidate_gaps c inverted kernel_size) in
  match pixel gap_labels y x with
  | Some l =>
      existsb (λ i, passes_gate MAX_GAP_PIXELS (gap_stats !!! Z.to_nat i)
                    && bool_decide (l = Z.to_nat i))
        (py.range 1 num_gaps)
  | None => false
  end.

(** Some kernel size of the sweep gates the pixel. *)
Definition cleared (c : constants) (MAX_GAP_PIXELS : Z) (binary_clean : grid)
    (y x : nat) : bool :=
  existsb (λ kernel_size,
             gated c MAX_GAP_PIXELS (cv2.bitwise_not binary_clean)
               kernel_size y x)
    (kernel_sizes MAX_GAP_PIXELS).

(** Some FREE cell of [binary_clean] lies under the [kernel_size] x
    [morph_kernel] window centred on [(y, x)]. *)
Definition reaches_free (c : constants) (binary_clean : grid)
    (kernel_size : Z) (y x : nat) : Prop :=
  ∃ dy dx : Z,
    (- (kernel_size `div` 2) ≤ dy < kernel_size - kernel_size `div` 2)%Z
    ∧ (- (morph_kernel c `div` 2) ≤ dx
       < morph_kernel c - morph_kernel c `div` 2)%Z
    ∧ pixelZ binary_clean (Z.of_nat y + dy) (Z.of_nat x + dx) = Some FREE.

(** ** canny *)

(** An angle [np.pi / n]. *)
Inductive angle := pi_over (n : Z).

(** A segment [x1, y1, x2, y2] of [cv2.HoughLinesP]. *)
Abbreviation segment := (Z * Z * Z * Z)%type.

(** The primitives of the edge and line extraction.  Their algorithms
    (fixed-point smoothing, gradient hysteresis, a randomised voting
    transform, rasterisation of thick lines) are those of the library;
    [canny] is embedded over any implementation of them. *)
Record cv2_edges := {
  cvtColor_BGR2GRAY : bgr_grid → grid;
  GaussianBlur : grid → Z * Z → Z → grid;
  Canny : grid → Z → Z → grid;
  (** [HoughLinesP(image, rho, theta, threshold, minLineLength, maxLineGap)],
      [None] when no segment is found; the array of shape (N, 1, 4) is the
      list of its N rows [line[0]]. *)
  HoughLinesP : grid → Z → angle → Z → Z → Z → option (list segment);
  (** [cv2.line(img, pt1, pt2, color, thickness)] draws in place. *)
  line : bgr_grid → Z * Z → Z * Z → Z * Z * Z → Z → bgr_grid
}.

Section canny.
Context (cv : cv2_edges).

(** Lines 79 to 82. *)
Definition to_gray (img : image) : grid :=
  match img with
  | Color c => cvtColor_BGR2GRAY cv c
  | Gray g => g
  end.

(** Lines 85 to 93: the edge grid. *)
Definition canny_edges (img : image) : grid :=
  let gray := to_gray img in
  let blur_kernel := 5%Z in
  let threshold1 := 30%Z in
  let threshold2 := 100%Z in
  let blurred := GaussianBlur cv gray (blur_kernel, blur_kernel) 0 in
  Canny cv blurred threshold1 threshold2.

(** Lines 96 to 105: the detected segments. *)
Definition canny_lines (img : image) : option (list segment) :=
  let edges := canny_edges img in
  let rho := 1%Z in
  let theta := pi_over 180 in
  let threshold := 50%Z in
  let min_line_length := 30%Z in
  let max_line_gap := 20%Z in
  HoughLinesP cv edges rho theta threshold min_line_length max_line_gap.

(** Line 116 for every segment, in order. *)
Definition draw_lines (result : bgr_grid) (lines : list segment)
  : bgr_grid :=
  foldl (λ result '(x1, y1, x2, y2),
           line cv result (x1, y1) (x2, y2) (0, 255, 0)%Z 2)
        result lines.

Definition canny (img : image) (debug : bool) : io bgr_grid :=
  let edges := canny_edges img in
  let lines := canny_lines img in
  let result := cv2.cvtColor_GRAY2BGR edges in
  match lines with
  | Some lines =>
      (if debug then print (Detected_lines (length lines))
       else mret tt) ;;
      mret (draw_lines result lines)
  | None =>
      (if debug then print No_lines_detected else mret tt) ;;
      mret result
  end.
End canny.

(** An all-FREE grid. *)
Definition blank (h w : nat) : grid := replicate h (replicate w FREE).

(** What the extraction relies on for an image without any boundary:
    smoothing a blank image leaves it blank, a blank image has no edge, and
    an edge grid without an edge pixel has no segment. *)
Record blank_laws (cv : cv2_edges) : Prop := {
  GaussianBlur_blank : ∀ h w,
    GaussianBlur cv (blank h w) (5, 5)%Z 0 = blank h w;
  Canny_blank : ∀ h w, Canny cv (blank h w) 30 100 = blank h w;
  HoughLinesP_blank : ∀ h w,
    HoughLinesP cv (blank h w) 1 (pi_over 180) 50 30 20 = None
}.

(** None of the primitives changes the height or the width. *)
Record shape_laws (cv : cv2_edges) : Prop := {
  dims_cvtColor_BGR2GRAY : ∀ c, dims (cvtColor_BGR2GRAY cv c) = dims c;
  dims_GaussianBlur : ∀ g ksize sigma,
    dims (GaussianBlur cv g ksize sigma) = dims g;
  dims_Canny : ∀ g lo hi, dims (Canny cv g lo hi) = dims g;
  dims_line : ∀ img p q colour thickness,
    dims (line cv img p q colour thickness) = dims img
}.

Definition image_dims (img : image) : list nat :=
  match img with
  | Gray g => dims g
  | Color c => dims c
  end.

(** *** A small implementation of the primitives

    Binomial smoothing, a thresholded Sobel gradient, row-wise segments and
    a sampled line.  It is far simpler than the library's algorithms and
    only shows that the laws above can be met together. *)

Module reference.

Definition reflect101 (n : nat) (i : Z) : nat :=
  let m := Z.of_nat n in
  cv2.clamp n (if bool_decide (i < 0)%Z then - i
               else if bool_decide (m ≤ i)%Z then 2 * (m - 1) - i else i)%Z.

Definition get (src : grid) (y x : nat) : Z := default 0%Z (pixel src y x).

Definition weighted_sum (src : grid) (taps : list (Z * Z * Z)) (y x : nat)
  : Z :=
  foldr (λ '(dy, dx, k) acc,
    (k * get src (reflect101 (length src) (Z.of_nat y + dy))
               (reflect101 (length (hd [] src)) (Z.of_nat x + dx)) + acc)%Z)
    0%Z taps.

Definition binomial5 : list (Z * Z) :=
  [(-2, 1); (-1, 4); (0, 6); (1, 4); (2, 1)]%Z.

Definition blur_taps : list (Z * Z * Z) :=
  '(dy, ky) ← binomial5; '(dx, kx) ← binomial5; [(dy, dx, (ky * kx)%Z)].

Definition binomial_blur (src : grid) (ksize : Z * Z) (sigma : Z) : grid :=
  gmapi (λ y x _, ((weighted_sum src blur_taps y x + 128) `div` 256)%Z) src.

Definition sobel_x : list (Z * Z * Z) :=
  [(-1, -1, -1); (-1, 1, 1); (0, -1, -2); (0, 1, 2); (1, -1, -1); (1, 1, 1)]%Z.
Definition sobel_y : list (Z * Z * Z) :=
  [(-1, -1, -1); (1, -1, 1); (-1, 0, -2); (1, 0, 2); (-1, 1, -1); (1, 1, 1)]%Z.

Definition sobel_edges (src : grid) (threshold1 threshold2 : Z) : grid :=
  gmapi (λ y x _,
    let magnitude :=
      (Z.abs (weighted_sum src sobel_x y x)
       + Z.abs (weighted_sum src sobel_y y x))%Z in
    if bool_decide (magnitude > threshold2)%Z then 255%Z else 0%Z) src.

(** One segment per row, from the first to the last edge pixel, when the
    row has enough edge pixels. *)
Definition row_segment (threshold min_len : Z) (y : nat) (row : list Z)
  : list segment :=
  let xs := concat (imap (λ x v,
              if bool_decide (v = 0%Z) then [] else [Z.of_nat x]) row) in
  match xs with
  | [] => []
  | x0 :: _ =>
      let x1 := List.last xs x0 in
      if bool_decide (threshold ≤ Z.of_nat (length xs))%Z
         && bool_decide (min_len ≤ x1 - x0 + 1)%Z
      then [(x0, Z.of_nat y, x1, Z.of_nat y)] else []
  end.

Definition row_segments (edges : grid) (rho : Z) (theta : angle)
    (threshold min_len max_gap : Z) : option (list segment) :=
  match concat (imap (row_segment threshold min_len) edges) with
  | [] => None
  | lines => Some lines
  end.

Definition put (img : bgr_grid) (y x : Z) (colour : Z * Z * Z) : bgr_grid :=
  if bool_decide (0 ≤ y ∧ 0 ≤ x)%Z
  then alter (λ row, <[Z.to_nat x := colour]> row) (Z.to_nat y) img
  else img.

Definition sampled_line (img : bgr_grid) (p q : Z * Z) (colour : Z * Z * Z)
    (thickness : Z) : bgr_grid :=
  let n := Z.max 1 (Z.max (Z.abs (q.1 - p.1)) (Z.abs (q.2 - p.2))) in
  foldl (λ img t,
    put img (p.2 + (q.2 - p.2) * t `div` n) (p.1 + (q.1 - p.1) * t `div` n)
        colour)%Z
    img (py.range 0 (n + 1)).

Definition gray_of_bgr (src : bgr_grid) : grid :=
  fmap (M := list)
    (λ '(b, g, r), ((r * 4899 + g * 9617 + b * 1868 + 8192) `div` 16384)%Z)
    <$> src.

Definition cv : cv2_edges :=
  {| cvtColor_BGR2GRAY := gray_of_bgr;
     GaussianBlur := binomial_blur;
     Canny := sobel_edges;
     HoughLinesP := row_segments;
     line := sampled_line |}.

End reference.

(** ** The script: lines 123 to 144

    [pathlib] is embedded as far as the script reads it: the stem of a file
    name.  How a string splits into a directory and a name belongs to the
    environment of a run. *)

Module pathlib.

(** [name.rfind('.')], [None] for -1. *)
Fixpoint rfind_dot (name : string) : option nat :=
  match name with
  | EmptyString => None
  | String a rest =>
      match rfind_dot rest with
      | Some i => Some (S i)
      | None => if Ascii.eqb a "."%char then Some 0 else None
      end
  end.

(** [PurePath.stem]: [name[:i]] for [i = name.rfind('.')] when
    [0 < i < len(name) - 1], the whole name otherwise. *)
Definition stem (name : string) : string :=
  match rfind_dot name with
  | Some i =>
      if bool_decide (0 < i) && bool_decide (i < String.length name - 1)
      then String.substring 0 i name
      else name
  | None => name
  end.

End pathlib.

(** The namespace that [argparse] returns. *)
Record arguments := {
  input_path : string;
  output_dir : option string;
  debug : bool
}.

(** Lines 136 and 139: [args.output_dir if args.output_dir else
    Path(args.input_path).parent]; the empty string is false. *)
Definition written_dir {dir} (w : world dir) (args : arguments) : dir :=
  match output_dir args with
  | Some s =>
      if bool_decide (s = EmptyString) then Path_parent w (input_path args)
      else Path_dir w s
  | None => Path_parent w (input_path args)
  end.

(** Lines 132 to 144. *)
Definition main {dir} (w : world dir) (cv : cv2_edges) (args : arguments)
  : script dir unit :=
  match process_map w (input_path args) (output_dir args) (debug args) with
  | (effects, inl e) => (effects, inl e)
  | (effects, inr processed_image) =>
      let '(printed, result) := canny cv (Gray processed_image) false in
      match result with
      | inl e => (effects ++ (Print <$> printed), inl e)
      | inr processed_image_2 =>
          let stem := pathlib.stem (Path_name w (input_path args)) in
          let output_path :=
            (written_dir w args, stem +:+ "_processed.png") in
          let output_path_edges :=
            (written_dir w args, stem +:+ "_edges.png") in
          (effects ++ (Print <$> printed)
           ++ [Imwrite output_path (Gray processed_image);
               Imwrite output_path_edges (Color processed_image_2)]
           ++ (if debug args
               then [Print_processed_saved output_path;
                     Print_edges_saved output_path_edges]
               else []),
           inr tt)
      end
  end.

(** The directory that lines 15 to 19 make in a run of the script. *)
Definition created_dir {dir} (w : world dir) (args : arguments) : dir :=
  output_directory w (input_path args) (output_dir args).


(** ** Connected components, as a specification

    What [cv2.connectedComponentsWithStats] documents for connectivity 8,
    stated on the pixels; [label_components] is checked against it below. *)

(** A non-zero pixel of the image. *)
Definition foreground (image : grid) (p : Z * Z) : Prop :=
  ∃ v, pixelZ image p.1 p.2 = Some v ∧ v ≠ 0%Z.

Definition adjacent8 (p q : Z * Z) : Prop := q ∈ cv2.neighbours8 p.1 p.2.

(** A path of non-zero pixels, each an 8-neighbour of the next. *)
Definition connected (image : grid) : relation (Z * Z) :=
  rtc (λ p q, foreground image p ∧ foreground image q ∧ adjacent8 p q).

Definition label_at (labels : label_grid) (p : Z * Z) : option nat :=
  pixelZ labels p.1 p.2.

Record components_of (image : grid) (labels : label_grid) (num_labels : nat)
  : Prop := {
  (** the label array has the shape of the image *)
  components_dims : dims labels = dims image;
  (** label 0 is the background, the other labels are below [num_labels] *)
  components_background : ∀ p l,
    label_at labels p = Some l → l ≠ 0 ↔ foreground image p;
  components_range : ∀ p l, label_at labels p = Some l → l < num_labels;
  (** every label from 1 on is carried by some pixel *)
  components_used : ∀ l, 1 ≤ l < num_labels → ∃ p, label_at labels p = Some l;
  (** two non-zero pixels share a label exactly when a path joins them *)
  components_connected : ∀ p q l l',
    foreground image p → foreground image q →
    label_at labels p = Some l → label_at labels q = Some l' →
    l = l' ↔ connected image p q
}.

(** The number of pixels still without a label. *)
Definition unlabelled (labels : label_grid) : nat :=
  sum_list ((λ row, length (filter (λ l, l = 0) row)) <$> labels).

(** The state of a flood fill for label [l] from the seed [s]: the labels
    below [l] are complete components, the pixels labelled [l] are joined to
    the seed, and their unlabelled neighbours are in the work list. *)
Record flooding (image : grid) (l : nat) (s : Z * Z)
    (labels : label_grid) (work : list (Z * Z)) : Prop := {
  fl_dims : dims labels = dims image;
  fl_foreground : ∀ p k,
    label_at labels p = Some k → k ≠ 0 → foreground image p ∧ k ≤ l;
  fl_old_closed : ∀ p q k,
    label_at labels p = Some k → k ≠ 0 → k ≠ l →
    foreground image q → adjacent8 p q → label_at labels q = Some k;
  fl_old_connected : ∀ p q k,
    k ≠ 0 → k ≠ l → label_at labels p = Some k → label_at labels q = Some k →
    connected image p q;
  fl_new_connected : ∀ p, label_at labels p = Some l → connected image s p;
  fl_frontier : ∀ p q,
    label_at labels p = Some l → foreground image q → adjacent8 p q →
    label_at labels q = Some l ∨ q ∈ work;
  fl_work : ∀ w, w ∈ work → foreground image w → connected image s w
}.

(** The state of the raster scan: every label given so far is a complete
    component. *)
Record labelled (image : grid) (labels : label_grid) (next : nat) : Prop := {
  lb_dims : dims labels = dims image;
  lb_next : 1 ≤ next;
  lb_foreground : ∀ p k,
    label_at labels p = Some k → k ≠ 0 → foreground image p ∧ k < next;
  lb_closed : ∀ p q k,
    label_at labels p = Some k → k ≠ 0 →
    foreground image q → adjacent8 p q → label_at labels q = Some k;
  lb_connected : ∀ p q k,
    k ≠ 0 → label_at labels p = Some k → label_at labels q = Some k →
    connected image p q;
  lb_used : ∀ k, 1 ≤ k < next → ∃ p, label_at labels p = Some k
}.

(** The grid of the shape of [g] with [v] in every cell
    ([np.full_like]). *)
Definition full_like (g : grid) (v : Z) : grid :=
  fmap (M := list) (λ _, v) <$> g.

(** ** Grids used in the examples *)

(** One row of wall with a break of [gap_len] cells from column
    [gap_from]. *)
Definition wall_row (width gap_from gap_len : nat) : list Z :=
  replicate gap_from OCCUPIED ++ replicate gap_len FREE
  ++ replicate (width - gap_from - gap_len) OCCUPIED.

(** A 100 x 100 grid with two horizontal walls: row 30 broken by 3 cells
    (columns 48 to 50), row 70 broken by 30 cells (columns 35 to 64). *)
Definition two_walls : grid :=
  replicate 30 (replicate 100 FREE) ++ [wall_row 100 48 3]
  ++ replicate 39 (replicate 100 FREE) ++ [wall_row 100 35 30]
  ++ replicate 29 (replicate 100 FREE).

(** [two_walls] with the break of 3 cells bridged. *)
Definition walls_bridged : grid :=
  replicate 30 (replicate 100 FREE) ++ [replicate 100 OCCUPIED]
  ++ replicate 39 (replicate 100 FREE) ++ [wall_row 100 35 30]
  ++ replicate 29 (replicate 100 FREE).

(** A 7 x 9 grid of OCCUPIED cells but for a region of 11 FREE cells in its
    top left corner, 4 wide and 3 high; the closing leaves it as it is. *)
Definition open_corner : grid :=
  replicate 2 (replicate 4 FREE ++ replicate 5 OCCUPIED)
  ++ [replicate 3 FREE ++ replicate 6 OCCUPIED]
  ++ replicate 4 (replicate 9 OCCUPIED).

(** One OCCUPIED cell in FREE space; the 3 x 5 closing leaves the grid as
    it is. *)
Definition lone_cell : grid :=
  [[0; 0; 0;   0; 0; 0; 0];
   [0; 0; 0;   0; 0; 0; 0];
   [0; 0; 0; 255; 0; 0; 0];
   [0; 0; 0;   0; 0; 0; 0];
   [0; 0; 0;   0; 0; 0; 0]]%Z.

(** A grid one pixel wide: five FREE cells above ten OCCUPIED cells; the
    closing leaves it as it is too. *)
Definition column : grid :=
  replicate 5 [FREE] ++ replicate 10 [OCCUPIED].

(** A 9 x 11 block of OCCUPIED cells around a hole of 3 x 5 FREE cells, the
    smallest hole the 3 x 5 closing leaves open. *)
Definition wide_hole : grid :=
  replicate 3 (replicate 11 OCCUPIED)
  ++ replicate 3 (replicate 3 OCCUPIED ++ replicate 5 FREE
                  ++ replicate 3 OCCUPIED)
  ++ replicate 3 (replicate 11 OCCUPIED).

(** Two images as a map file holds them, intensity 0 for an obstacle and 254
    for open space: a dark block of 3 x 3 pixels, and a strip one pixel
    wide, light above dark. *)
Definition dark_block : grid :=
  replicate 3 (replicate 9 254%Z)
  ++ replicate 3 [254; 254; 254; 0; 0; 0; 254; 254; 254]%Z
  ++ replicate 3 (replicate 9 254%Z).

Definition strip : grid := replicate 5 [254%Z] ++ replicate 10 [0%Z].

(** A dark image of 7 x 9 pixels with a light rectangle of 3 x 4 pixels in
    its top left corner. *)
Definition light_corner : grid :=
  replicate 3 (replicate 4 254%Z ++ replicate 5 0%Z)
  ++ replicate 4 (replicate 9 0%Z).

(** A sample environment for the script: every string names a file of the
    directory ["."], every directory but ["/proc/maps"] can be made,
    ["map1.png"] decodes to [dark_block], ["strip.png"] to [strip],
    ["corner.png"] to [light_corner] and ["photo.png"] to a colour image of
    9 x 9 pixels; no other file is there. *)
Definition sample_world : world string :=
  {| Path_parent := λ _, ".";
     Path_name := λ s, s;
     Path_dir := λ s, s;
     mkdir := λ d, negb (bool_decide (d = "/proc/maps"));
     imread := λ s,
       if bool_decide (s = "map1.png") then Some (Gray8 dark_block)
       else if bool_decide (s = "strip.png") then Some (Gray8 strip)
       else if bool_decide (s = "corner.png") then Some (Gray8 light_corner)
       else if bool_decide (s = "photo.png")
            then Some (Other_array [9; 9; 3] true)
       else None |}.

Definition sample_arguments : arguments :=
  {| input_path := "map1.png"; output_dir := Some "out"; debug := true |}.

(** * Properties *)

(** ** Shapes and pixels of the array operations *)

Section arrays.
Context {A B C : Type}.
Implicit Types (g : list (list A)) (y x : nat).

Lemma dims_fmap (f : A → B) g :
  dims (fmap (M := list) f <$> g) = dims g.
Proof.
  unfold dims. rewrite <- list_fmap_compose. apply list_fmap_ext.
  intros _ row _. simpl. apply length_fmap.
Qed.

Lemma dims_gmapi (f : nat → nat → A → B) g : dims (gmapi f g) = dims g.
Proof.
  unfold dims, gmapi. apply list_eq. intros i.
  rewrite !list_lookup_fmap, list_lookup_imap.
  destruct (g !! i) as [row|]; simpl; [|done].
  f_equal. apply length_imap.
Qed.

Lemma dims_zip_with (f : A → B → C) g (g' : list (list B)) :
  dims g = dims g' → dims (zip_with (zip_with f) g g') = dims g.
Proof.
  unfold dims. revert g'.
  induction g as [|row g IH]; intros [|row' g'] H; simpl in *; try done.
  injection H as Hrow Hg. f_equal; [|by apply IH].
  rewrite length_zip_with. lia.
Qed.

Lemma pixel_fmap (f : A → B) g y x :
  pixel (fmap (M := list) f <$> g) y x = f <$> pixel g y x.
Proof.
  unfold pixel. rewrite list_lookup_fmap.
  destruct (g !! y) as [row|]; simpl; [|done].
  apply list_lookup_fmap.
Qed.

Lemma pixel_gmapi (f : nat → nat → A → B) g y x :
  pixel (gmapi f g) y x = f y x <$> pixel g y x.
Proof.
  unfold pixel, gmapi. rewrite list_lookup_imap.
  destruct (g !! y) as [row|]; simpl; [|done].
  apply list_lookup_imap.
Qed.

Lemma pixel_zip_with (f : A → B → C) g (g' : list (list B)) y x :
  pixel (zip_with (zip_with f) g g') y x =
  u ← pixel g y x; v ← pixel g' y x; Some (f u v).
Proof.
  unfold pixel. rewrite lookup_zip_with.
  destruct (g !! y) as [row|]; simpl; [|done].
  destruct (g' !! y) as [row'|]; simpl.
  - rewrite lookup_zip_with. destruct (row !! x); simpl; [|done].
    by destruct (row' !! x).
  - by destruct (row !! x).
Qed.

(** A pixel exists exactly inside the shape. *)
Lemma pixel_is_Some g y x :
  is_Some (pixel g y x) ↔ ∃ w, dims g !! y = Some w ∧ x < w.
Proof.
  unfold pixel, dims. rewrite list_lookup_fmap.
  destruct (g !! y) as [row|]; simpl.
  - rewrite lookup_lt_is_Some. split.
    + intros H. exists (length row). by split.
    + intros (w & Hw & H). by simplify_eq.
  - split; [intros [? ?]|intros (? & ? & ?)]; simplify_eq.
Qed.

Lemma rect_dims g g' h w : dims g' = dims g → rect h w g → rect h w g'.
Proof. unfold rect. by intros ->. Qed.
End arrays.

Lemma pixel_same_dims {A B} (g : list (list A)) (g' : list (list B)) y x :
  dims g = dims g' → is_Some (pixel g y x) ↔ is_Some (pixel g' y x).
Proof. intros H. rewrite !pixel_is_Some, H. done. Qed.

(** Two arrays of one shape with the same pixels are equal. *)
Lemma grid_ext {A} (g g' : list (list A)) :
  dims g = dims g' → (∀ y x, pixel g y x = pixel g' y x) → g = g'.
Proof.
  intros Hd Hp. apply list_eq. intros y.
  assert (Hy : (length <$> g) !! y = (length <$> g') !! y) by (by fold (dims g); rewrite Hd).
  rewrite !list_lookup_fmap in Hy.
  specialize (Hp y). unfold pixel in Hp.
  destruct (g !! y) as [row|], (g' !! y) as [row'|]; simpl in *; try done.
  f_equal. apply list_eq. intros x. apply Hp.
Qed.


(** ** The 8-bit pixel operations *)

Lemma lxor_255_involutive v : Z.lxor (Z.lxor v 255) 255 = v.
Proof. rewrite Z.lxor_assoc, Z.lxor_nilpotent. apply Z.lxor_0_r. Qed.

Lemma testbit_255 n : (0 ≤ n)%Z → Z.testbit 255 n = bool_decide (n < 8)%Z.
Proof.
  intros Hn. change 255%Z with (Z.ones 8). rewrite Z.testbit_ones by lia.
  case_bool_decide; lia.
Qed.

Lemma testbit_uint8_high v n :
  (0 ≤ v < 256)%Z → (8 ≤ n)%Z → Z.testbit v n = false.
Proof.
  intros Hv Hn. destruct (decide (v = 0%Z)) as [->|]; [apply Z.bits_0|].
  apply Z.bits_above_log2; [lia|].
  assert (Z.log2 v < 8)%Z; [|lia]. apply Z.log2_lt_pow2; lia.
Qed.

(** Or-ing the mask value 255 into an inverted 8-bit pixel and inverting
    back clears the pixel. *)
Lemma clear_pixel v :
  (0 ≤ v < 256)%Z → Z.lxor (Z.lor (Z.lxor v 255) 255) 255 = 0%Z.
Proof.
  intros Hv. apply Z.bits_inj'. intros n Hn.
  rewrite Z.lxor_spec, Z.lor_spec, Z.lxor_spec, Z.bits_0, testbit_255 by done.
  case_bool_decide; simpl.
  - by rewrite orb_true_r.
  - rewrite testbit_uint8_high by lia. done.
Qed.

Lemma bitwise_not_involutive g : cv2.bitwise_not (cv2.bitwise_not g) = g.
Proof.
  unfold cv2.bitwise_not. rewrite <- list_fmap_compose.
  rewrite <- (list_fmap_id g) at 2. apply list_fmap_ext. intros _ row _. simpl.
  rewrite <- list_fmap_compose. rewrite <- (list_fmap_id row) at 2.
  apply list_fmap_ext. intros _ v _. simpl. apply lxor_255_involutive.
Qed.

(** ** The loop of line 47 *)

Lemma range3_step_2 (M : Z) :
  kernel_sizes M = (λ i, 3 + Z.of_nat i * 2)%Z <$> seq 0 (Z.to_nat (M - 1)).
Proof.
  unfold kernel_sizes, py.range3. do 3 f_equal.
  replace (M * 2 + 1 - 3 + 2 - 1)%Z with (1 + (M - 1) * 2)%Z by lia.
  rewrite Z.div_add by lia. done.
Qed.

Lemma elem_of_kernel_sizes M k :
  k ∈ kernel_sizes M ↔ (3 ≤ k ≤ 2 * M - 1)%Z ∧ Z.odd k = true.
Proof.
  rewrite range3_step_2, list_elem_of_fmap. split.
  - intros (i & -> & Hi). apply elem_of_seq in Hi. split; [lia|].
    replace (3 + Z.of_nat i * 2)%Z with (1 + 2 * (1 + Z.of_nat i))%Z by lia.
    rewrite Z.odd_add_mul_2. done.
  - intros [Hk Hodd]. exists (Z.to_nat ((k - 3) `div` 2)).
    rewrite Zodd_bool_iff in Hodd.
    apply Zodd_ex_iff in Hodd as [m ->].
    replace (2 * m + 1 - 3)%Z with ((m - 1) * 2)%Z by lia.
    rewrite Z.div_mul by lia. split; [lia|]. apply elem_of_seq. lia.
Qed.

Lemma NoDup_kernel_sizes M : NoDup (kernel_sizes M).
Proof.
  rewrite range3_step_2. apply NoDup_fmap_2; [|apply NoDup_seq].
  intros i j. lia.
Qed.

Lemma kernel_sizes_empty M : (M ≤ 1)%Z → kernel_sizes M = [].
Proof.
  intros HM. rewrite range3_step_2.
  replace (Z.to_nat (M - 1)) with 0 by lia. done.
Qed.

Lemma bound_not_reached M k :
  k ∈ kernel_sizes M → bound_reached M k = false.
Proof.
  rewrite elem_of_kernel_sizes. intros [Hk _].
  unfold bound_reached. case_bool_decide; [lia|done].
Qed.

Lemma for_break_never {S} (brk : Z → bool) (body : Z → S → S) xs s :
  Forall (λ x, brk x = false) xs →
  py.for_break brk body xs s = py.for_each body xs s.
Proof.
  intros H. revert s. induction H as [|x xs Hx _ IH]; intros s; simpl; [done|].
  rewrite Hx. apply IH.
Qed.

Lemma for_each_log {S} (f : Z → S) xs log :
  py.for_each (λ x log, log ++ [f x]) xs log = log ++ (f <$> xs).
Proof.
  revert log. induction xs as [|x xs IH]; intros log; simpl.
  - by rewrite app_nil_r.
  - rewrite IH, <- app_assoc. done.
Qed.

Lemma Forall_bound_not_reached M :
  Forall (λ k, bound_reached M k = false) (kernel_sizes M).
Proof. apply Forall_forall. intros k. apply bound_not_reached. Qed.

Lemma kernels_evaluated_eq c M :
  kernels_evaluated c M = (λ k, (k, morph_kernel c)) <$> kernel_sizes M.
Proof.
  unfold kernels_evaluated.
  rewrite for_break_never by apply Forall_bound_not_reached.
  apply (for_each_log (λ k, (k, morph_kernel c))).
Qed.

Lemma fill_gaps_px_unfold c M g :
  fill_gaps_px c M g =
  cv2.bitwise_not
    (py.for_each (sweep_step c M (cv2.bitwise_not g)) (kernel_sizes M)
       (cv2.bitwise_not g)).
Proof.
  unfold fill_gaps_px. cbv zeta.
  rewrite for_break_never by apply Forall_bound_not_reached. done.
Qed.


(** ** Shapes through the library operations *)

Lemma dims_bitwise_not g : dims (cv2.bitwise_not g) = dims g.
Proof. apply dims_fmap. Qed.

Lemma dims_dilate g kernel : dims (cv2.dilate g kernel) = dims g.
Proof. apply dims_gmapi. Qed.

Lemma dims_erode g kernel : dims (cv2.erode g kernel) = dims g.
Proof. apply dims_gmapi. Qed.

Lemma dims_morphologyEx_CLOSE g kernel :
  dims (cv2.morphologyEx_CLOSE g kernel) = dims g.
Proof. unfold cv2.morphologyEx_CLOSE. by rewrite dims_erode, dims_dilate. Qed.

Lemma dims_medianBlur g ksize : dims (cv2.medianBlur g ksize) = dims g.
Proof. apply dims_gmapi. Qed.

Lemma dims_threshold g thresh maxval :
  dims (cv2.threshold_BINARY_INV g thresh maxval).2 = dims g.
Proof. apply dims_fmap. Qed.

Lemma dims_eq_mask labels i : dims (np.eq_mask labels i) = dims labels.
Proof. apply dims_fmap. Qed.

Lemma dims_set_label labels y x l :
  dims (cv2.set_label labels y x l) = dims labels.
Proof.
  unfold dims, cv2.set_label. apply list_eq. intros i.
  rewrite !list_lookup_fmap. destruct (decide (i = y)) as [->|Hne].
  - rewrite list_lookup_alter_eq. destruct (labels !! y); simpl; [|done].
    by rewrite length_insert.
  - by rewrite list_lookup_alter_ne.
Qed.

Lemma dims_flood fuel image labels l work :
  dims (cv2.flood fuel image labels l work) = dims labels.
Proof.
  revert labels work. induction fuel as [|fuel IH]; intros labels work; [done|].
  simpl. destruct work as [|[y x] work]; [done|].
  destruct (pixelZ image y x) as [v|]; [|apply IH].
  destruct (pixelZ labels y x) as [[|n]|]; try apply IH.
  case_bool_decide; [apply IH|]. rewrite IH. apply dims_set_label.
Qed.

Lemma dims_label_from image st p :
  dims (cv2.label_from image st p).1 = dims st.1.
Proof.
  destruct st as [labels next], p as [y x]. simpl.
  destruct (pixel image y x) as [v|]; [|done].
  destruct (pixel labels y x) as [[|n]|]; try done.
  case_bool_decide; [done|]. apply dims_flood.
Qed.

Lemma dims_foldl_label_from image ps st :
  dims (foldl (cv2.label_from image) st ps).1 = dims st.1.
Proof.
  revert st. induction ps as [|p ps IH]; intros st; simpl; [done|].
  rewrite IH. apply dims_label_from.
Qed.

Lemma dims_label_components image :
  dims (cv2.label_components image).1 = dims image.
Proof.
  unfold cv2.label_components. rewrite dims_foldl_label_from. apply dims_fmap.
Qed.

(** The label array has the shape of the image. *)
Lemma dims_connectedComponents image :
  dims (cv2.connectedComponentsWithStats image).1.2 = dims image.
Proof.
  unfold cv2.connectedComponentsWithStats.
  pose proof (dims_label_components image) as H.
  destruct (cv2.label_components image) as [labels num]. done.
Qed.

Lemma dims_candidate_gaps c inverted k :
  dims (candidate_gaps c inverted k) = dims inverted.
Proof.
  unfold candidate_gaps, cv2.bitwise_and.
  rewrite dims_zip_with; [apply dims_dilate|].
  by rewrite dims_dilate, dims_bitwise_not.
Qed.

(** The two arguments of [cv2.bitwise_and] at line 51 have one shape. *)
Lemma same_dims_filled_gaps c inverted k :
  dims (cv2.dilate inverted (np.ones k (morph_kernel c)))
  = dims (cv2.bitwise_not inverted).
Proof. by rewrite dims_dilate, dims_bitwise_not. Qed.

(** ** The size gate, pixel by pixel *)

Lemma dims_fill_component M labels stats i result :
  dims result = dims labels →
  dims (fill_component M labels stats i result) = dims result.
Proof.
  intros H. unfold fill_component. cbv zeta.
  destruct (_ && _); [|done].
  apply dims_zip_with. by rewrite dims_eq_mask.
Qed.

Lemma dims_for_each_fill_component M labels stats ids result :
  dims result = dims labels →
  dims (py.for_each (fill_component M labels stats) ids result) = dims result.
Proof.
  revert result. induction ids as [|i ids IH]; intros result H; simpl; [done|].
  rewrite IH; rewrite dims_fill_component; done.
Qed.

Lemma dims_sweep_step c M inverted k result :
  dims result = dims inverted →
  dims (sweep_step c M inverted k result) = dims result.
Proof.
  intros H. unfold sweep_step. cbv zeta.
  pose proof (dims_connectedComponents (candidate_gaps c inverted k)) as Hl.
  destruct (cv2.connectedComponentsWithStats _) as [[num labels] stats].
  simpl in Hl. apply dims_for_each_fill_component.
  by rewrite Hl, dims_candidate_gaps.
Qed.

Lemma dims_sweep c M inverted ks result :
  dims result = dims inverted →
  dims (py.for_each (sweep_step c M inverted) ks result) = dims result.
Proof.
  revert result. induction ks as [|k ks IH]; intros result H; simpl; [done|].
  rewrite IH; rewrite dims_sweep_step; done.
Qed.

Lemma dims_fill_gaps_px c M g : dims (fill_gaps_px c M g) = dims g.
Proof.
  rewrite fill_gaps_px_unfold, dims_bitwise_not, dims_sweep; [|done].
  apply dims_bitwise_not.
Qed.


Lemma pixel_fill_component M labels stats i result y x v l :
  pixel result y x = Some v → pixel labels y x = Some l →
  pixel (fill_component M labels stats i result) y x =
  Some (if passes_gate M (stats !!! Z.to_nat i) && bool_decide (l = Z.to_nat i)
        then Z.lor v 255 else v).
Proof.
  intros Hv Hl. unfold fill_component, passes_gate. cbv zeta.
  destruct (_ && _); simpl; [|done].
  unfold cv2.bitwise_or, np.eq_mask.
  rewrite pixel_zip_with, pixel_fmap, Hv, Hl. simpl.
  case_bool_decide; [done|]. by rewrite Z.lor_0_r.
Qed.

Lemma lor_255_idem v : Z.lor (Z.lor v 255) 255 = Z.lor v 255.
Proof. by rewrite <- Z.lor_assoc, Z.lor_diag. Qed.

Lemma pixel_for_each_fill_component M labels stats ids result y x v l :
  dims result = dims labels →
  pixel result y x = Some v → pixel labels y x = Some l →
  pixel (py.for_each (fill_component M labels stats) ids result) y x =
  Some (if existsb (λ i, passes_gate M (stats !!! Z.to_nat i)
                         && bool_decide (l = Z.to_nat i)) ids
        then Z.lor v 255 else v).
Proof.
  revert result v. induction ids as [|i ids IH]; intros result v Hd Hv Hl.
  { done. }
  simpl. erewrite IH; [| |by apply pixel_fill_component|done].
  - destruct (_ && _); simpl; [|done].
    rewrite lor_255_idem. by destruct (existsb _ _).
  - by rewrite dims_fill_component.
Qed.

Lemma pixel_sweep_step c M inverted k result y x v :
  dims result = dims inverted →
  pixel result y x = Some v →
  pixel (sweep_step c M inverted k result) y x =
  Some (if gated c M inverted k y x then Z.lor v 255 else v).
Proof.
  intros Hd Hv. unfold sweep_step, gated. cbv zeta.
  pose proof (dims_connectedComponents (candidate_gaps c inverted k)) as Hl.
  destruct (cv2.connectedComponentsWithStats _) as [[num labels] stats].
  simpl in Hl. rewrite dims_candidate_gaps in Hl.
  assert (is_Some (pixel labels y x)) as [l Hpl].
  { apply (pixel_same_dims result); [congruence|by eexists]. }
  rewrite Hpl. apply pixel_for_each_fill_component; [congruence|done..].
Qed.

Lemma pixel_sweep c M inverted ks result y x v :
  dims result = dims inverted →
  pixel result y x = Some v →
  pixel (py.for_each (sweep_step c M inverted) ks result) y x =
  Some (if existsb (λ k, gated c M inverted k y x) ks
        then Z.lor v 255 else v).
Proof.
  revert result v. induction ks as [|k ks IH]; intros result v Hd Hv.
  { done. }
  simpl. erewrite IH; [| |by apply pixel_sweep_step].
  - destruct (gated _ _ _ _ _ _); simpl; [|done].
    rewrite lor_255_idem. by destruct (existsb _ _).
  - by rewrite dims_sweep_step.
Qed.

(** The returned pixel: cleared when some sweep gates it, the input pixel
    otherwise. *)
Lemma pixel_fill_gaps_px c M g y x v :
  pixel g y x = Some v → (0 ≤ v < 256)%Z →
  pixel (fill_gaps_px c M g) y x =
  Some (if cleared c M g y x then 0%Z else v).
Proof.
  intros Hv Hr. rewrite fill_gaps_px_unfold. unfold cv2.bitwise_not at 1.
  rewrite pixel_fmap.
  erewrite pixel_sweep; [|done|].
  2: { unfold cv2.bitwise_not. rewrite pixel_fmap, Hv. done. }
  simpl. unfold cleared. destruct (existsb _ _).
  - by rewrite clear_pixel.
  - by rewrite lxor_255_involutive.
Qed.

Lemma elem_of_range_1 n i : i ∈ py.range 1 n ↔ (1 ≤ i < n)%Z.
Proof.
  unfold py.range, py.range3. rewrite list_elem_of_fmap.
  replace (n - 1 + 1 - 1)%Z with (n - 1)%Z by lia. rewrite Z.div_1_r.
  split.
  - intros (j & -> & Hj). apply elem_of_seq in Hj. lia.
  - intros Hi. exists (Z.to_nat (i - 1)). split; [lia|].
    apply elem_of_seq. lia.
Qed.

(** [gated] spelled out. *)
Lemma gated_spec c M inverted k y x :
  gated c M inverted k y x = true ↔
  ∃ i : Z,
    let '(num_gaps, gap_labels, gap_stats) :=
      cv2.connectedComponentsWithStats (candidate_gaps c inverted k) in
    (1 ≤ i < num_gaps)%Z
    ∧ pixel gap_labels y x = Some (Z.to_nat i)
    ∧ (Z.max (cv2.CC_STAT_WIDTH (gap_stats !!! Z.to_nat i))
             (cv2.CC_STAT_HEIGHT (gap_stats !!! Z.to_nat i)) ≤ M)%Z
    ∧ (cv2.CC_STAT_AREA (gap_stats !!! Z.to_nat i) ≤ M ^ 2)%Z.
Proof.
  unfold gated.
  destruct (cv2.connectedComponentsWithStats _) as [[num labels] stats].
  destruct (pixel labels y x) as [l|].
  - rewrite existsb_exists. unfold passes_gate. split.
    + intros (i & Hi & Ht). exists i.
      apply list_elem_of_In, elem_of_range_1 in Hi.
      rewrite !andb_true_iff, !bool_decide_eq_true in Ht.
      destruct Ht as [[? ?] ->]. done.
    + intros (i & Hi & Hl & Hw & Ha). exists i. split.
      * by apply list_elem_of_In, elem_of_range_1.
      * rewrite !andb_true_iff, !bool_decide_eq_true. by simplify_eq.
  - split; [done|]. by intros (i & _ & ? & _).
Qed.


(** ** The labelling computes the 8-connected components *)

Lemma adjacent8_spec p q :
  adjacent8 p q ↔
  (Z.abs (q.1 - p.1) ≤ 1)%Z ∧ (Z.abs (q.2 - p.2) ≤ 1)%Z ∧ p ≠ q.
Proof.
  destruct p as [y x], q as [y' x']. unfold adjacent8, cv2.neighbours8. simpl.
  rewrite !elem_of_cons, elem_of_nil. split.
  - intros H. repeat destruct H as [H|H]; try done;
      simplify_eq; (split; [lia|split; [lia|]]);
      intros H'; simplify_eq; lia.
  - intros (Hy & Hx & Hne).
    assert (y' = y - 1 ∨ y' = y ∨ y' = y + 1)%Z as Hy' by lia.
    assert (x' = x - 1 ∨ x' = x ∨ x' = x + 1)%Z as Hx' by lia.
    destruct Hy' as [-> | [-> | ->]], Hx' as [-> | [-> | ->]]; tauto.
Qed.

Lemma adjacent8_sym p q : adjacent8 p q → adjacent8 q p.
Proof. rewrite !adjacent8_spec. intros (? & ? & ?). repeat split; [lia..|done]. Qed.

Lemma connected_sym image p q : connected image p q → connected image q p.
Proof.
  unfold connected. induction 1 as [|p q r (Hp & Hq & Ha) _ IH]; [done|].
  eapply rtc_r; [exact IH|]. auto using adjacent8_sym.
Qed.

Lemma connected_trans image p q r :
  connected image p q → connected image q r → connected image p r.
Proof. apply rtc_trans. Qed.

Lemma connected_step image p q r :
  connected image p q → foreground image q → foreground image r →
  adjacent8 q r → connected image p r.
Proof. intros H ? ? ?. eapply rtc_r; [exact H|done]. Qed.

(** *** Pixel access with signed coordinates *)

Lemma pixelZ_Some {A} (g : list (list A)) y x a :
  pixelZ g y x = Some a →
  (0 ≤ y)%Z ∧ (0 ≤ x)%Z ∧ pixel g (Z.to_nat y) (Z.to_nat x) = Some a.
Proof. unfold pixelZ. case_bool_decide; [|done]. intros Hp. tauto. Qed.

Lemma pixelZ_of_nat {A} (g : list (list A)) (y x : nat) :
  pixelZ g (Z.of_nat y) (Z.of_nat x) = pixel g y x.
Proof.
  unfold pixelZ. rewrite bool_decide_eq_true_2 by lia. by rewrite !Nat2Z.id.
Qed.

Lemma pixelZ_same_dims {A B} (g : list (list A)) (g' : list (list B)) y x :
  dims g = dims g' → is_Some (pixelZ g y x) ↔ is_Some (pixelZ g' y x).
Proof.
  intros H. unfold pixelZ. case_bool_decide; [|done].
  by apply pixel_same_dims.
Qed.

Lemma pixel_set_label labels y x l y' x' :
  is_Some (pixel labels y x) →
  pixel (cv2.set_label labels y x l) y' x' =
  if decide ((y', x') = (y, x)) then Some l else pixel labels y' x'.
Proof.
  unfold pixel, cv2.set_label. intros [a Ha].
  destruct (labels !! y) as [row|] eqn:Hrow; simpl in Ha; [|done].
  destruct (decide (y' = y)) as [->|Hy].
  - rewrite list_lookup_alter_eq, Hrow. simpl.
    destruct (decide (x' = x)) as [->|Hx].
    + rewrite decide_True by done.
      apply list_lookup_insert_eq. by eapply lookup_lt_Some.
    + rewrite decide_False by congruence. by apply list_lookup_insert_ne.
  - rewrite list_lookup_alter_ne by done.
    rewrite decide_False by congruence. done.
Qed.

Lemma label_at_set_label labels p l q :
  is_Some (label_at labels p) →
  label_at (cv2.set_label labels (Z.to_nat p.1) (Z.to_nat p.2) l) q =
  if decide (q = p) then Some l else label_at labels q.
Proof.
  destruct p as [y x], q as [y' x']. unfold label_at. simpl. intros [a Ha].
  apply pixelZ_Some in Ha as (Hy & Hx & Ha).
  unfold pixelZ at 1. case_bool_decide as Hq.
  - rewrite pixel_set_label by (by eexists).
    destruct (decide ((y', x') = (y, x))) as [[= -> ->]|Hne].
    + by rewrite decide_True.
    + rewrite decide_False.
      * unfold pixelZ. by rewrite bool_decide_eq_true_2.
      * intros [= ? ?]. apply Hne. f_equal; lia.
  - rewrite decide_False.
    + unfold pixelZ. by rewrite bool_decide_eq_false_2.
    + intros [= -> ->]. apply Hq. lia.
Qed.

(** *** Counting the pixels without a label *)

Lemma unlabelled_insert (row : list nat) x l :
  row !! x = Some 0 → l ≠ 0 →
  S (length (filter (λ k, k = 0) (<[x := l]> row)))
  = length (filter (λ k, k = 0) row).
Proof.
  intros Hx Hl. revert x Hx. induction row as [|k row IH]; intros x Hx; [done|].
  destruct x as [|x]; simpl in *.
  - injection Hx as ->. rewrite filter_cons_False by done.
    by rewrite filter_cons_True.
  - specialize (IH x Hx). destruct (decide (k = 0)).
    + rewrite !filter_cons_True by done. simpl. by rewrite IH.
    + by rewrite !filter_cons_False.
Qed.

Lemma unlabelled_set_label labels y x l :
  pixel labels y x = Some 0 → l ≠ 0 →
  S (unlabelled (cv2.set_label labels y x l)) = unlabelled labels.
Proof.
  intros Hp Hl. revert y Hp.
  induction labels as [|row labels IH]; intros y Hp; [done|].
  destruct y as [|y].
  - change (S (length (filter (λ k, k = 0) (<[x := l]> row))
               + unlabelled labels)
            = length (filter (λ k, k = 0) row) + unlabelled labels).
    rewrite <- (unlabelled_insert row x l) by done. lia.
  - change (S (length (filter (λ k, k = 0) row)
               + unlabelled (cv2.set_label labels y x l))
            = length (filter (λ k, k = 0) row) + unlabelled labels).
    rewrite <- (IH y Hp). lia.
Qed.

Lemma length_concat_imap {A B} (f : nat → list A → list B) g :
  (∀ i row, length (f i row) = length row) →
  length (concat (imap f g)) = sum_list (dims g).
Proof.
  revert f. induction g as [|row g IH]; intros f Hf; [done|].
  change (length (f 0 row ++ concat (imap (f ∘ S) g))
          = length row + sum_list (dims g)).
  rewrite length_app, Hf, IH; [done|]. intros i row'. apply Hf.
Qed.

Lemma length_raster {A} (g : list (list A)) :
  length (cv2.raster g) = sum_list (dims g).
Proof. apply length_concat_imap. intros i row. apply length_imap. Qed.

Lemma unlabelled_le labels : unlabelled labels ≤ sum_list (dims labels).
Proof.
  induction labels as [|row labels IH]; [done|].
  change (length (filter (λ k, k = 0) row) + unlabelled labels
          ≤ length row + sum_list (dims labels)).
  pose proof (length_filter (λ k, k = 0) row). lia.
Qed.

Lemma unlabelled_le_area (image : grid) labels :
  dims labels = dims image → unlabelled labels ≤ cv2.area image.
Proof.
  intros H. unfold cv2.area. rewrite length_raster, <- H. apply unlabelled_le.
Qed.

Lemma elem_of_concat {A} (x : A) (ls : list (list A)) :
  x ∈ concat ls ↔ ∃ l, l ∈ ls ∧ x ∈ l.
Proof.
  rewrite list_elem_of_In, in_concat. split; intros (l & H1 & H2); exists l;
    by rewrite ?list_elem_of_In in *.
Qed.

Lemma elem_of_raster {A} (g : list (list A)) y x :
  (y, x) ∈ cv2.raster g ↔ is_Some (pixel g y x).
Proof.
  unfold cv2.raster, pixel. rewrite elem_of_concat. split.
  - intros (l & Hl & Hin).
    apply elem_of_lookup_imap in Hl as (i & row & -> & Hrow).
    apply elem_of_lookup_imap in Hin as (j & a & Heq & Ha).
    injection Heq as -> ->. rewrite Hrow. simpl. by eexists.
  - intros [a Ha]. destruct (g !! y) as [row|] eqn:Hrow; simpl in Ha; [|done].
    exists (imap (λ x _, (y, x)) row). split.
    + apply elem_of_lookup_imap. by exists y, row.
    + apply elem_of_lookup_imap. by exists x, a.
Qed.

(** *** One flood fill *)

Section flood.
Context (image : grid) (l : nat) (s : Z * Z) (Hl : l ≠ 0).

Lemma flooding_label_is_Some labels work q :
  flooding image l s labels work → foreground image q →
  is_Some (label_at labels q).
Proof.
  intros Hf (v & Hv & _). unfold label_at.
  apply (pixelZ_same_dims image); [by rewrite (fl_dims _ _ _ _ _ Hf)|].
  by eexists.
Qed.

(** A pixel that is not a non-zero pixel without a label is dropped from
    the work list. *)
Lemma flooding_skip labels p work :
  flooding image l s labels (p :: work) →
  ¬ (foreground image p ∧ label_at labels p = Some 0) →
  flooding image l s labels work.
Proof.
  intros Hf Hp. destruct Hf as [H1 H2 H3 H4 H5 H6 H7].
  split; try done.
  - intros p' q Hp' Hq Hadj.
    destruct (H6 p' q Hp' Hq Hadj) as [?|Hin]; [by left|].
    apply elem_of_cons in Hin as [->|Hin]; [|by right]. left.
    assert (is_Some (label_at labels p)) as [k Hk].
    { unfold label_at. destruct Hq as (v & Hv & _).
      apply (pixelZ_same_dims image); [by rewrite H1|by eexists]. }
    destruct (decide (k = 0)) as [->|Hk0]; [tauto|].
    destruct (decide (k = l)) as [->|Hkl]; [done|].
    assert (label_at labels p' = Some k) as Hp'k.
    { apply (H3 p p' k); try done.
      - apply (H2 p' l); done.
      - by apply adjacent8_sym. }
    congruence.
  - intros w Hw. apply H7. by right.
Qed.

(** A non-zero pixel without a label takes the label, and its neighbours
    join the work list. *)
Lemma flooding_label labels p work :
  flooding image l s labels (p :: work) →
  foreground image p → label_at labels p = Some 0 →
  flooding image l s
    (cv2.set_label labels (Z.to_nat p.1) (Z.to_nat p.2) l)
    (cv2.neighbours8 p.1 p.2 ++ work).
Proof.
  intros Hf Hfg Hp0. destruct Hf as [H1 H2 H3 H4 H5 H6 H7].
  assert (Hset : ∀ q,
    label_at (cv2.set_label labels (Z.to_nat p.1) (Z.to_nat p.2) l) q
    = if decide (q = p) then Some l else label_at labels q).
  { intros q. apply label_at_set_label. by eexists. }
  assert (Hsp : connected image s p).
  { apply H7; [by left|done]. }
  split.
  - by rewrite dims_set_label.
  - intros q k. rewrite Hset. case_decide as Hq.
    + intros [= <-] _. subst q. split; [done|lia].
    + apply H2.
  - intros q r k. rewrite !Hset. case_decide as Hq.
    { intros [= <-] _ Hkl. done. }
    intros Hqk Hk0 Hkl Hr Hadj. specialize (H3 q r k Hqk Hk0 Hkl Hr Hadj).
    rewrite decide_False; [done|]. intros ->. congruence.
  - intros q r k Hk0 Hkl. rewrite !Hset. case_decide as Hq.
    { intros [= <-]. done. }
    case_decide as Hr. { intros _ [= <-]. done. }
    by apply H4.
  - intros q. rewrite Hset. case_decide as Hq; [by subst q|apply H5].
  - intros q r. rewrite !Hset. case_decide as Hq.
    + subst q. intros _ Hr Hadj. right. apply elem_of_app. by left.
    + intros Hql Hr Hadj. destruct (H6 q r Hql Hr Hadj) as [Hrl|Hin].
      * left. by rewrite decide_False by (intros ->; congruence).
      * apply elem_of_cons in Hin as [->|Hin].
        -- left. by rewrite decide_True.
        -- case_decide; [by left|]. right. apply elem_of_app. by right.
  - intros w Hw Hfw. apply elem_of_app in Hw as [Hw|Hw].
    + by apply (connected_step image s p w).
    + apply H7; [by right|done].
Qed.

(** With enough fuel the flood fill empties its work list. *)
Lemma flood_flooding fuel labels work :
  length work + 9 * unlabelled labels ≤ fuel →
  flooding image l s labels work →
  flooding image l s (cv2.flood fuel image labels l work) [].
Proof.
  revert labels work. induction fuel as [|fuel IH]; intros labels work Hfuel Hf.
  { destruct work; [done|]. simpl in Hfuel. lia. }
  destruct work as [|[y x] work]; [done|]. simpl in Hfuel.
  change (flooding image l s
    match pixelZ image y x, pixelZ labels y x with
    | Some v, Some O =>
        if bool_decide (v = 0%Z) then cv2.flood fuel image labels l work
        else cv2.flood fuel image
               (cv2.set_label labels (Z.to_nat y) (Z.to_nat x) l) l
               (cv2.neighbours8 y x ++ work)
    | _, _ => cv2.flood fuel image labels l work
    end []).
  assert (Hskip : ¬ (foreground image (y, x) ∧ label_at labels (y, x) = Some 0)
                  → flooding image l s (cv2.flood fuel image labels l work) []).
  { intros Hno. apply IH; [lia|]. by eapply flooding_skip. }
  destruct (pixelZ image y x) as [v|] eqn:Hv.
  2: { apply Hskip. intros [(v & Hv' & _) _]. simpl in Hv'. congruence. }
  destruct (pixelZ labels y x) as [[|k]|] eqn:Hk.
  2: { apply Hskip. intros [_ Hk']. unfold label_at in Hk'. simpl in Hk'.
       congruence. }
  2: { apply Hskip. intros [_ Hk']. unfold label_at in Hk'. simpl in Hk'.
       congruence. }
  case_bool_decide as Hv0.
  { apply Hskip. intros [(v' & Hv' & Hne) _]. simpl in Hv'. congruence. }
  apply IH.
  - pose proof Hk as Hk'. apply pixelZ_Some in Hk' as (_ & _ & Hk').
    pose proof (unlabelled_set_label labels _ _ l Hk' Hl).
    rewrite length_app. simpl. lia.
  - apply (flooding_label labels (y, x) work Hf); [|done].
    exists v. done.
Qed.

(** Labels already given are kept. *)
Lemma flood_keeps fuel labels work p k :
  k ≠ 0 → label_at labels p = Some k →
  label_at (cv2.flood fuel image labels l work) p = Some k.
Proof.
  intros Hk0. revert labels work.
  induction fuel as [|fuel IH]; intros labels work Hp; [done|].
  destruct work as [|[y x] work]; [done|].
  change (label_at
    match pixelZ image y x, pixelZ labels y x with
    | Some v, Some O =>
        if bool_decide (v = 0%Z) then cv2.flood fuel image labels l work
        else cv2.flood fuel image
               (cv2.set_label labels (Z.to_nat y) (Z.to_nat x) l) l
               (cv2.neighbours8 y x ++ work)
    | _, _ => cv2.flood fuel image labels l work
    end p = Some k).
  destruct (pixelZ image y x) as [v|]; [|by apply IH].
  destruct (pixelZ labels y x) as [[|n]|] eqn:Hn; try by apply IH.
  case_bool_decide; [by apply IH|]. apply IH.
  rewrite (label_at_set_label labels (y, x)) by (by eexists).
  rewrite decide_False; [done|]. intros ->. unfold label_at in Hp.
  simpl in Hp. congruence.
Qed.

End flood.

(** *** The raster scan *)

Lemma labelled_start (image : grid) :
  labelled image (fmap (M := list) (λ _, 0) <$> image) 1.
Proof.
  assert (H0 : ∀ p k,
    label_at (fmap (M := list) (λ _ : Z, 0) <$> image) p = Some k → k = 0).
  { intros [y x] k. unfold label_at, pixelZ. simpl.
    case_bool_decide; [|done]. rewrite pixel_fmap.
    destruct (pixel image _ _); simpl; congruence. }
  split.
  - apply dims_fmap.
  - done.
  - intros p k Hk Hk0. by apply H0 in Hk.
  - intros p q k Hk Hk0. by apply H0 in Hk.
  - intros p q k Hk0 Hk. by apply H0 in Hk.
  - intros k Hk. lia.
Qed.

Lemma labelled_flooding image labels next s :
  labelled image labels next →
  flooding image next s labels [s].
Proof.
  intros [H1 H2 H3 H4 H5 H6]. split.
  - done.
  - intros p k Hk Hk0. destruct (H3 p k Hk Hk0). split; [done|lia].
  - intros p q k Hk Hk0 _. by apply H4.
  - intros p q k Hk0 _. by apply H5.
  - intros p Hp. destruct (H3 p next Hp); lia.
  - intros p q Hp. destruct (H3 p next Hp); lia.
  - intros w Hw _. apply list_elem_of_singleton in Hw as ->. apply rtc_refl.
Qed.

Lemma flooding_labelled image labels labels' next s :
  next ≠ 0 →
  (∀ k, 1 ≤ k < next → ∃ p, label_at labels p = Some k) →
  (∀ p k, k ≠ 0 → label_at labels p = Some k → label_at labels' p = Some k) →
  label_at labels' s = Some next →
  flooding image next s labels' [] →
  labelled image labels' (S next).
Proof.
  intros Hn Hused Hkeep Hs [H1 H2 H3 H4 H5 H6 H7]. split.
  - done.
  - lia.
  - intros p k Hk Hk0. destruct (H2 p k Hk Hk0). split; [done|lia].
  - intros p q k Hk Hk0 Hq Hadj.
    destruct (decide (k = next)) as [->|Hne]; [|by eapply H3].
    destruct (H6 p q Hk Hq Hadj) as [?|Hin]; [done|].
    destruct (not_elem_of_nil _ Hin).
  - intros p q k Hk0 Hp Hq.
    destruct (decide (k = next)) as [->|Hne]; [|by eapply H4].
    eapply connected_trans; [apply connected_sym|]; by apply H5.
  - intros k Hk. destruct (decide (k = next)) as [->|Hne]; [by exists s|].
    destruct (Hused k) as [p Hp]; [lia|]. exists p. apply Hkeep; [lia|done].
Qed.

(** The first step of a flood fill labels its seed. *)
Lemma flood_seed (image : grid) fuel labels l y x v :
  l ≠ 0 → pixelZ image y x = Some v → v ≠ 0%Z → pixelZ labels y x = Some 0 →
  label_at (cv2.flood (S fuel) image labels l [(y, x)]) (y, x) = Some l.
Proof.
  intros Hl Hv Hv0 Hk. simpl. rewrite Hv, Hk.
  rewrite bool_decide_eq_false_2 by done.
  apply flood_keeps; [done|].
  rewrite (label_at_set_label labels (y, x)) by (by eexists).
  by rewrite decide_True.
Qed.

Lemma label_from_labelled image labels next y x :
  labelled image labels next →
  let st := cv2.label_from image (labels, next) (y, x) in
  labelled image st.1 st.2
  ∧ (∀ p k, k ≠ 0 → label_at labels p = Some k → label_at st.1 p = Some k)
  ∧ (foreground image (Z.of_nat y, Z.of_nat x) →
     ∃ k, k ≠ 0 ∧ label_at st.1 (Z.of_nat y, Z.of_nat x) = Some k).
Proof.
  intros Hlab. pose proof Hlab as [H1 H2 H3 H4 H5 H6]. simpl.
  destruct (pixel image y x) as [v|] eqn:Hv.
  2: { split; [done|]. split; [done|]. intros (v & Hv' & _). simpl in Hv'.
       rewrite pixelZ_of_nat in Hv'. congruence. }
  destruct (pixel labels y x) as [[|k]|] eqn:Hk.
  - case_bool_decide as Hv0.
    { split; [done|]. split; [done|]. intros (v' & Hv' & Hne). simpl in Hv'.
      rewrite pixelZ_of_nat in Hv'. congruence. }
    simpl.
    assert (Hseed : label_at
              (cv2.flood (9 * cv2.area image + 1) image labels next
                 [(Z.of_nat y, Z.of_nat x)]) (Z.of_nat y, Z.of_nat x)
              = Some next).
    { replace (9 * cv2.area image + 1) with (S (9 * cv2.area image)) by lia.
      apply (flood_seed image _ labels next _ _ v); [lia| |done|];
        by rewrite pixelZ_of_nat. }
    split; [|split].
    + apply (flooding_labelled image labels _ next
               (Z.of_nat y, Z.of_nat x)); [lia|done| |done|].
      * intros p k Hk0 Hp. by apply flood_keeps.
      * apply flood_flooding; [lia| |by apply labelled_flooding].
        pose proof (unlabelled_le_area image labels H1). simpl. lia.
    + intros p k Hk0 Hp. by apply flood_keeps.
    + intros _. exists next. split; [lia|done].
  - split; [done|]. split; [done|]. intros _. exists (S k). split; [done|].
    unfold label_at. simpl. by rewrite pixelZ_of_nat.
  - split; [done|]. split; [done|]. intros _.
    assert (is_Some (pixel labels y x)) as [? ?]; [|congruence].
    apply (pixel_same_dims image); [done|by eexists].
Qed.

Lemma foldl_label_from_labelled image ps labels next :
  labelled image labels next →
  let st := foldl (cv2.label_from image) (labels, next) ps in
  labelled image st.1 st.2
  ∧ (∀ p k, k ≠ 0 → label_at labels p = Some k → label_at st.1 p = Some k)
  ∧ (∀ y x, (y, x) ∈ ps → foreground image (Z.of_nat y, Z.of_nat x) →
     ∃ k, k ≠ 0 ∧ label_at st.1 (Z.of_nat y, Z.of_nat x) = Some k).
Proof.
  revert labels next. induction ps as [|[y x] ps IH]; intros labels next Hlab.
  { cbv zeta. simpl. split; [done|]. split; [done|]. intros y x Hin.
    destruct (not_elem_of_nil _ Hin). }
  destruct (label_from_labelled image labels next y x Hlab) as (Ha & Hb & Hc).
  cbv zeta in *.
  change (foldl (cv2.label_from image) (labels, next) ((y, x) :: ps))
    with (foldl (cv2.label_from image)
            (cv2.label_from image (labels, next) (y, x)) ps).
  destruct (cv2.label_from image (labels, next) (y, x))
    as [labels1 next1] eqn:Hst. simpl in Ha, Hb, Hc.
  destruct (IH labels1 next1 Ha) as (Ha' & Hb' & Hc').
  split; [done|]. split.
  - intros p k Hk0 Hp. apply Hb'; [done|]. by apply Hb.
  - intros y' x' Hin Hfg. apply elem_of_cons in Hin as [[= -> ->]|Hin].
    + destruct (Hc Hfg) as (k & Hk0 & Hk). exists k. split; [done|].
      by apply Hb'.
    + by apply Hc'.
Qed.

(** [label_components] labels the 8-connected components of the non-zero
    pixels. *)
Theorem label_components_correct (image : grid) :
  components_of image (cv2.label_components image).1
    (cv2.label_components image).2.
Proof.
  unfold cv2.label_components.
  destruct (foldl_label_from_labelled image (cv2.raster image) _ 1
              (labelled_start image)) as (Hlab & _ & Hall).
  destruct (foldl _ _ _) as [labels num]. simpl in *.
  destruct Hlab as [H1 H2 H3 H4 H5 H6].
  assert (Hfg : ∀ p, foreground image p →
                ∃ k, k ≠ 0 ∧ label_at labels p = Some k).
  { intros [y x] Hp. pose proof Hp as (v & Hv & _). simpl in Hv.
    apply pixelZ_Some in Hv as (Hy & Hx & Hv).
    rewrite <- (Z2Nat.id y), <- (Z2Nat.id x) in Hp |- * by done.
    apply Hall; [|done]. apply elem_of_raster. by eexists. }
  split.
  - done.
  - intros p l Hl. split.
    + intros Hl0. by apply (H3 p l).
    + intros Hp. destruct (Hfg p Hp) as (k & Hk0 & Hk). congruence.
  - intros p l Hl. destruct (decide (l = 0)) as [->|Hl0]; [lia|].
    by apply (H3 p l).
  - done.
  - intros p q l l' Hp Hq Hl Hl'.
    assert (Hl0 : l ≠ 0).
    { destruct (Hfg p Hp) as (k & Hk0 & Hk). congruence. }
    split.
    + intros <-. by apply (H5 p q l).
    + intros Hpath. assert (label_at labels q = Some l); [|congruence].
      clear Hl' Hq Hp. revert Hl. unfold connected in Hpath.
      induction Hpath as [|a b c (Ha & Hb & Hadj) _ IH]; [done|].
      intros Hl. apply IH. by apply (H4 a b l).
Qed.

(** The labels and the count returned by
    [cv2.connectedComponentsWithStats]. *)
Corollary connectedComponentsWithStats_correct (image : grid) :
  ∃ num_labels : nat,
    (cv2.connectedComponentsWithStats image).1.1 = Z.of_nat num_labels
    ∧ components_of image (cv2.connectedComponentsWithStats image).1.2
        num_labels
    ∧ (cv2.connectedComponentsWithStats image).2
      = cv2.stat_of (cv2.connectedComponentsWithStats image).1.2
          <$> seq 0 num_labels.
Proof.
  unfold cv2.connectedComponentsWithStats.
  pose proof (label_components_correct image) as H.
  destruct (cv2.label_components image) as [labels num].
  exists num. done.
Qed.

(** *** The statistics of a label *)

Lemma elem_of_cells_of labels l y x :
  (y, x) ∈ cv2.cells_of labels l ↔ pixel labels y x = Some l.
Proof.
  unfold cv2.cells_of, pixel. rewrite elem_of_concat. split.
  - intros (cs & Hcs & Hin).
    apply elem_of_lookup_imap in Hcs as (i & row & -> & Hrow).
    apply elem_of_concat in Hin as (c & Hc & Hin).
    apply elem_of_lookup_imap in Hc as (j & k & -> & Hk).
    case_bool_decide; [|by destruct (not_elem_of_nil _ Hin)].
    apply list_elem_of_singleton in Hin. injection Hin as -> ->.
    rewrite Hrow. simpl. congruence.
  - intros Hp. destruct (labels !! y) as [row|] eqn:Hrow; simpl in Hp; [|done].
    eexists. split; [apply elem_of_lookup_imap; by exists y, row|].
    apply elem_of_concat. eexists. split.
    + apply elem_of_lookup_imap. by exists x, l.
    + rewrite bool_decide_eq_true_2 by done. by apply list_elem_of_singleton.
Qed.

Lemma foldr_min_le init (zs : list Z) z :
  z ∈ zs → (foldr Z.min init zs ≤ z)%Z.
Proof.
  induction zs as [|a zs IH]; intros Hin; [by destruct (not_elem_of_nil _ Hin)|].
  apply elem_of_cons in Hin as [->|Hin]; simpl; [lia|].
  specialize (IH Hin). lia.
Qed.

Lemma foldr_max_ge init (zs : list Z) z :
  z ∈ zs → (z ≤ foldr Z.max init zs)%Z.
Proof.
  induction zs as [|a zs IH]; intros Hin; [by destruct (not_elem_of_nil _ Hin)|].
  apply elem_of_cons in Hin as [->|Hin]; simpl; [lia|].
  specialize (IH Hin). lia.
Qed.

(** Every pixel of a label lies in its bounding box, and the area counts
    the pixels of the label. *)
Lemma stat_of_bounds labels l y x :
  pixel labels y x = Some l →
  let st := cv2.stat_of labels l in
  (cv2.CC_STAT_LEFT st ≤ Z.of_nat x
   < cv2.CC_STAT_LEFT st + cv2.CC_STAT_WIDTH st)%Z
  ∧ (cv2.CC_STAT_TOP st ≤ Z.of_nat y
     < cv2.CC_STAT_TOP st + cv2.CC_STAT_HEIGHT st)%Z
  ∧ cv2.CC_STAT_AREA st = Z.of_nat (length (cv2.cells_of labels l))
  ∧ (1 ≤ cv2.CC_STAT_AREA st)%Z.
Proof.
  intros Hp. apply elem_of_cells_of in Hp. unfold cv2.stat_of. simpl.
  set (cs := cv2.cells_of labels l) in *.
  assert (Hy : Z.of_nat y ∈ (λ p : nat * nat, Z.of_nat p.1) <$> cs).
  { apply list_elem_of_fmap. by exists (y, x). }
  assert (Hx : Z.of_nat x ∈ (λ p : nat * nat, Z.of_nat p.2) <$> cs).
  { apply list_elem_of_fmap. by exists (y, x). }
  pose proof (foldr_min_le (Z.of_nat (length labels)) _ _ Hy).
  pose proof (foldr_max_ge (-1)%Z _ _ Hy).
  pose proof (foldr_min_le (Z.of_nat (length (hd [] labels))) _ _ Hx).
  pose proof (foldr_max_ge (-1)%Z _ _ Hx).
  split; [lia|]. split; [lia|]. split; [done|].
  destruct cs; [by destruct (not_elem_of_nil _ Hp)|]. simpl. lia.
Qed.

(** ** Occupancy values *)

Lemma binary_pixel g y x v :
  binary g → pixel g y x = Some v → v = FREE ∨ v = OCCUPIED.
Proof.
  unfold binary, pixel. intros Hb Hp.
  destruct (g !! y) as [row|] eqn:Hy; simpl in Hp; [|done].
  eapply Forall_lookup_1 in Hb; [|done].
  eapply Forall_lookup_1 in Hb; done.
Qed.

Lemma binary_uint8 g y x v :
  binary g → pixel g y x = Some v → (0 ≤ v < 256)%Z.
Proof.
  intros Hb Hp. destruct (binary_pixel _ _ _ _ Hb Hp) as [-> | ->];
    unfold FREE, OCCUPIED; lia.
Qed.

(** A FREE cell stays FREE. *)
Lemma free_stays_free c M g y x :
  pixel g y x = Some FREE → pixel (fill_gaps_px c M g) y x = Some FREE.
Proof.
  intros Hp. erewrite pixel_fill_gaps_px; [|done|unfold FREE; lia].
  by destruct (cleared _ _ _ _ _).
Qed.

Lemma fill_gaps_px_empty_sweep c M g : (M ≤ 1)%Z → fill_gaps_px c M g = g.
Proof.
  intros HM. rewrite fill_gaps_px_unfold, kernel_sizes_empty by done.
  apply bitwise_not_involutive.
Qed.

Lemma cleared_spec c M g y x :
  cleared c M g y x = true ↔
  ∃ k, k ∈ kernel_sizes M ∧ gated c M (cv2.bitwise_not g) k y x = true.
Proof.
  unfold cleared. rewrite existsb_exists. split.
  - intros (k & Hk & Hg). exists k. by rewrite list_elem_of_In.
  - intros (k & Hk & Hg). exists k. by rewrite <- list_elem_of_In.
Qed.


(** ** What the dilation reaches *)

(** The offsets of an all-ones kernel: the full window around the anchor. *)
Lemma elem_of_kernel_offsets_ones (rows cols : Z) (dy dx : Z) :
  (0 < rows)%Z →
  (dy, dx) ∈ cv2.kernel_offsets (np.ones rows cols) ↔
  (- (rows `div` 2) ≤ dy < rows - rows `div` 2)%Z
  ∧ (- (cols `div` 2) ≤ dx < cols - cols `div` 2)%Z.
Proof.
  intros Hrows. unfold cv2.kernel_offsets, np.ones.
  rewrite length_replicate.
  destruct (Z.to_nat rows) as [|n] eqn:Hn; [lia|]. rewrite <- Hn.
  replace (hd [] (replicate (Z.to_nat rows) (replicate (Z.to_nat cols) 1%Z)))
    with (replicate (Z.to_nat cols) 1%Z) by (by rewrite Hn).
  rewrite length_replicate, elem_of_concat.
  rewrite Z2Nat.id by lia. split.
  - intros (l & Hl & Hin).
    apply elem_of_lookup_imap in Hl as (i & row & -> & Hrow).
    apply lookup_replicate in Hrow as [-> Hi].
    apply elem_of_concat in Hin as (l & Hl & Hin).
    apply elem_of_lookup_imap in Hl as (j & e & -> & He).
    apply lookup_replicate in He as [-> Hj].
    rewrite bool_decide_eq_false_2 in Hin by done.
    apply list_elem_of_singleton in Hin. injection Hin as -> ->.
    destruct (decide (0 ≤ cols)%Z); [rewrite Z2Nat.id by done|]; lia.
  - intros [Hdy Hdx].
    assert (0 < cols)%Z.
    { destruct (decide (0 < cols)%Z); [done|].
      assert (cols `div` 2 ≤ 0)%Z by (apply Z.div_le_upper_bound; lia).
      pose proof (Z.div_lt_upper_bound cols 2 0). 
      assert (cols - cols `div` 2 ≤ - (cols `div` 2))%Z by lia. lia. }
    rewrite Z2Nat.id by lia.
    eexists. split.
    + apply elem_of_lookup_imap.
      exists (Z.to_nat (dy + rows `div` 2)), (replicate (Z.to_nat cols) 1%Z).
      split; [done|]. apply lookup_replicate. split; [done|].
      pose proof (Z.div_pos rows 2). lia.
    + apply elem_of_concat. eexists. split.
      * apply elem_of_lookup_imap.
        exists (Z.to_nat (dx + cols `div` 2)), 1%Z. split; [done|].
        apply lookup_replicate. split; [done|].
        pose proof (Z.div_pos cols 2). lia.
      * rewrite bool_decide_eq_false_2 by done.
        apply list_elem_of_singleton.
        pose proof (Z.div_pos rows 2). pose proof (Z.div_pos cols 2).
        f_equal; lia.
Qed.

Lemma pixelZ_fmap {A B} (f : A → B) (g : list (list A)) y x :
  pixelZ (fmap (M := list) f <$> g) y x = f <$> pixelZ g y x.
Proof. unfold pixelZ. case_bool_decide; [apply pixel_fmap|done]. Qed.

Lemma pixel_dilate src kernel y x :
  pixel (cv2.dilate src kernel) y x =
  (λ _, foldr Z.max 0%Z (cv2.window src (cv2.kernel_offsets kernel) y x))
    <$> pixel src y x.
Proof. apply pixel_gmapi. Qed.

Lemma pixel_bitwise_not g y x :
  pixel (cv2.bitwise_not g) y x = (λ v, Z.lxor v 255) <$> pixel g y x.
Proof. apply pixel_fmap. Qed.

Lemma elem_of_window src offs y x v :
  v ∈ cv2.window src offs y x ↔
  ∃ dy dx, (dy, dx) ∈ offs
           ∧ pixelZ src (Z.of_nat y + dy) (Z.of_nat x + dx) = Some v.
Proof.
  unfold cv2.window. rewrite list_elem_of_omap. split.
  - intros ([dy dx] & Hin & Hv). by exists dy, dx.
  - intros (dy & dx & Hin & Hv). by exists (dy, dx).
Qed.

Lemma foldr_max_binary (vs : list Z) :
  (∀ v, v ∈ vs → v = 0%Z ∨ v = 255%Z) →
  foldr Z.max 0%Z vs = if bool_decide (255%Z ∈ vs) then 255%Z else 0%Z.
Proof.
  induction vs as [|a vs IH]; intros Hvs.
  { rewrite bool_decide_eq_false_2; [done|apply not_elem_of_nil]. }
  cbn [foldr]. rewrite IH by (intros v Hv; apply Hvs; by right).
  destruct (Hvs a) as [-> | ->]; [by left| |].
  - destruct (decide (255%Z ∈ vs)) as [Hin|Hin].
    + rewrite !bool_decide_eq_true_2; [done|by right|done].
    + rewrite !bool_decide_eq_false_2; [done| |done].
      intros [?|?]%elem_of_cons; done.
  - rewrite (bool_decide_eq_true_2 (255%Z ∈ 255%Z :: vs)) by (by left).
    case_bool_decide; done.
Qed.

(** A cell is a candidate at kernel size [k] exactly when it is OCCUPIED and
    some FREE cell lies under the [k] x [morph_kernel] window centred on
    it; every other cell of the candidate grid is zero. *)
Lemma candidate_gaps_spec (c : constants) (g : grid) (k : Z) (y x : nat)
    (v : Z) :
  binary g → (0 < k)%Z → pixel g y x = Some v →
  (pixel (candidate_gaps c (cv2.bitwise_not g) k) y x = Some 255%Z
   ↔ v = OCCUPIED ∧ reaches_free c g k y x)
  ∧ (pixel (candidate_gaps c (cv2.bitwise_not g) k) y x = Some 0%Z
     ∨ pixel (candidate_gaps c (cv2.bitwise_not g) k) y x = Some 255%Z).
Proof.
  intros Hb Hk Hv.
  set (offs := cv2.kernel_offsets (np.ones k (morph_kernel c))).
  set (vs := cv2.window (cv2.bitwise_not g) offs y x).
  assert (Hpix : pixel (candidate_gaps c (cv2.bitwise_not g) k) y x
                 = Some (Z.land (foldr Z.max 0%Z vs) v)).
  { unfold candidate_gaps, cv2.bitwise_and. cbv zeta.
    rewrite pixel_zip_with, pixel_dilate, bitwise_not_involutive.
    rewrite pixel_bitwise_not, Hv. done. }
  assert (Hvs : ∀ u, u ∈ vs → u = 0%Z ∨ u = 255%Z).
  { intros u Hu. apply elem_of_window in Hu as (dy & dx & _ & Hu).
    unfold cv2.bitwise_not in Hu. rewrite pixelZ_fmap in Hu.
    destruct (pixelZ g _ _) as [a|] eqn:Ha; [|done].
    apply pixelZ_Some in Ha as (_ & _ & Ha).
    destruct (binary_pixel _ _ _ _ Hb Ha) as [-> | ->];
      injection Hu as <-; [by right|by left]. }
  assert (Hreach : 255%Z ∈ vs ↔ reaches_free c g k y x).
  { unfold vs. rewrite elem_of_window. unfold reaches_free. split.
    - intros (dy & dx & Hin & Hu). exists dy, dx.
      apply elem_of_kernel_offsets_ones in Hin as [? ?]; [|done].
      split; [done|]. split; [done|].
      unfold cv2.bitwise_not in Hu. rewrite pixelZ_fmap in Hu.
      destruct (pixelZ g _ _) as [a|] eqn:Ha; [|done].
      pose proof Ha as Ha'. apply pixelZ_Some in Ha' as (_ & _ & Ha').
      destruct (binary_pixel _ _ _ _ Hb Ha') as [-> | ->]; [done|].
      by injection Hu.
    - intros (dy & dx & Hdy & Hdx & Hu). exists dy, dx. split.
      + by apply elem_of_kernel_offsets_ones.
      + unfold cv2.bitwise_not. by rewrite pixelZ_fmap, Hu. }
  rewrite Hpix, (foldr_max_binary vs Hvs).
  destruct (binary_pixel _ _ _ _ Hb Hv) as [-> | ->];
    case_bool_decide as Hin; unfold FREE, OCCUPIED; simpl.
  - split; [|by left]. split; [done|]. intros [? _]. done.
  - split; [|by left]. split; [done|]. intros [? _]. done.
  - split; [|by right]. split; [|done]. intros _. split; [done|].
    by apply Hreach.
  - split; [|by left]. split; [done|]. intros [_ ?]. exfalso. apply Hin.
    by apply Hreach.
Qed.

(** A gated cell is a candidate cell: OCCUPIED, with a FREE cell under the
    window. *)
Lemma gated_candidate (c : constants) (M : Z) (g : grid) (k : Z) (y x : nat)
    (v : Z) :
  binary g → (0 < k)%Z → pixel g y x = Some v →
  gated c M (cv2.bitwise_not g) k y x = true →
  v = OCCUPIED ∧ reaches_free c g k y x.
Proof.
  intros Hb Hk Hv Hg. apply gated_spec in Hg as (i & Hg).
  destruct (connectedComponentsWithStats_correct
              (candidate_gaps c (cv2.bitwise_not g) k)) as (n & _ & Hcomp & _).
  destruct (cv2.connectedComponentsWithStats _) as [[num labels] stats].
  simpl in Hcomp. destruct Hg as (Hi & Hl & _).
  assert (Hfg : foreground (candidate_gaps c (cv2.bitwise_not g) k)
                  (Z.of_nat y, Z.of_nat x)).
  { apply (components_background _ _ _ Hcomp _ (Z.to_nat i)).
    - unfold label_at. simpl. by rewrite pixelZ_of_nat.
    - lia. }
  destruct Hfg as (u & Hu & Hu0). simpl in Hu. rewrite pixelZ_of_nat in Hu.
  destruct (candidate_gaps_spec c g k y x v Hb Hk Hv) as [Hiff [H0|H255]].
  - congruence.
  - by apply Hiff.
Qed.

(** ** [process_map] once the directory is made *)

Lemma process_image_gray c img debug :
  process_image c (Some (Gray8 img)) debug
  = ((if debug then [Loaded_image_with_shape (decoded_shape (Gray8 img))]
      else [])
     ++ printed (fill_gaps c (close_binary c
                   (binarize (cv2.medianBlur img (median_kernel c))))),
     returned (fill_gaps c (close_binary c
                 (binarize (cv2.medianBlur img (median_kernel c)))))).
Proof.
  unfold process_image. destruct (fill_gaps c _) as [out [e|r]].
  - by destruct debug.
  - by destruct debug.
Qed.

Lemma process_map_with_made {dir} c (w : world dir) input_path output_dir
    debug :
  mkdir w (output_directory w input_path output_dir) = true →
  process_map_with c w input_path output_dir debug
  = (Mkdir (output_directory w input_path output_dir)
     :: (Print <$> printed (process_image c (imread w input_path) debug)),
     returned (process_image c (imread w input_path) debug)).
Proof.
  intros Hm. unfold process_map_with. rewrite Hm.
  by destruct (process_image c _ debug).
Qed.

Lemma process_map_with_loads {dir} c (w : world dir) input_path output_dir
    debug img :
  loads w input_path output_dir img →
  process_map_with c w input_path output_dir debug
  = (Mkdir (output_directory w input_path output_dir)
     :: (Print <$> printed (process_image c (Some (Gray8 img)) debug)),
     returned (process_image c (Some (Gray8 img)) debug)).
Proof. intros [Hm Hi]. by rewrite process_map_with_made, Hi. Qed.

(** ** The model on small inputs *)

Example range3_kernel_sizes :
  py.range3 3 9 2 = [3; 5; 7]%Z ∧ py.range3 3 3 2 = [] ∧ py.range 1 4 = [1; 2; 3]%Z.
Proof. done. Qed.

Example int_truediv_source : int_truediv 20 5 = mret 4%Z.
Proof. done. Qed.

Example int_truediv_truncates :
  int_truediv (-1) 5 = mret 0%Z ∧ int_truediv 7 2 = mret 3%Z
  ∧ int_truediv 20 0 = raise ZeroDivisionError.
Proof. done. Qed.

Example kernel_offsets_3x5 :
  cv2.kernel_offsets (np.ones 3 5) =
  [(-1, -2); (-1, -1); (-1, 0); (-1, 1); (-1, 2);
   (0, -2); (0, -1); (0, 0); (0, 1); (0, 2);
   (1, -2); (1, -1); (1, 0); (1, 1); (1, 2)]%Z.
Proof. done. Qed.

Example dilate_one_pixel :
  cv2.dilate [[0; 0; 0; 0; 0; 0; 0];
              [0; 0; 0; 0; 0; 0; 0];
              [0; 0; 0; 255; 0; 0; 0];
              [0; 0; 0; 0; 0; 0; 0];
              [0; 0; 0; 0; 0; 0; 0]]%Z (np.ones 3 5)
  = [[0; 0; 0; 0; 0; 0; 0];
     [0; 255; 255; 255; 255; 255; 0];
     [0; 255; 255; 255; 255; 255; 0];
     [0; 255; 255; 255; 255; 255; 0];
     [0; 0; 0; 0; 0; 0; 0]]%Z.
Proof. vm_compute. done. Qed.

Example medianBlur_removes_speck :
  cv2.medianBlur [[9; 9; 9]; [9; 0; 9]; [9; 9; 9]]%Z 3
  = [[9; 9; 9]; [9; 9; 9]; [9; 9; 9]]%Z.
Proof. vm_compute. done. Qed.

Example threshold_values :
  cv2.threshold_BINARY_INV [[0; 1; 2; 254; 255]]%Z 1 255
  = (1%Z, [[255; 255; 0; 0; 0]]%Z).
Proof. done. Qed.

Example components_of_three_blobs :
  cv2.connectedComponentsWithStats
    [[255; 0; 255]; [0; 0; 0]; [255; 0; 255]; [0; 255; 0]]%Z
  = (4%Z,
     [[1; 0; 2]; [0; 0; 0]; [3; 0; 3]; [0; 3; 0]],
     [{| cv2.CC_STAT_LEFT := 0; cv2.CC_STAT_TOP := 0; cv2.CC_STAT_WIDTH := 3;
         cv2.CC_STAT_HEIGHT := 4; cv2.CC_STAT_AREA := 7 |};
      {| cv2.CC_STAT_LEFT := 0; cv2.CC_STAT_TOP := 0; cv2.CC_STAT_WIDTH := 1;
         cv2.CC_STAT_HEIGHT := 1; cv2.CC_STAT_AREA := 1 |};
      {| cv2.CC_STAT_LEFT := 2; cv2.CC_STAT_TOP := 0; cv2.CC_STAT_WIDTH := 1;
         cv2.CC_STAT_HEIGHT := 1; cv2.CC_STAT_AREA := 1 |};
      {| cv2.CC_STAT_LEFT := 0; cv2.CC_STAT_TOP := 2; cv2.CC_STAT_WIDTH := 3;
         cv2.CC_STAT_HEIGHT := 2; cv2.CC_STAT_AREA := 3 |}]).
Proof. vm_compute. done. Qed.

(** The candidate cells of [lone_cell] at kernel size 3: the cell itself, a
    component of width 1, height 1 and area 1. *)
Example candidates_of_lone_cell :
  candidate_gaps source_constants (cv2.bitwise_not lone_cell) 3 = lone_cell
  ∧ gated source_constants 4 (cv2.bitwise_not lone_cell) 3 2 3 = true.
Proof. split; vm_compute; done. Qed.

(** In [two_walls] the closing of line 37, not the gap-fill stage, bridges
    the break of 3 cells; the break of 30 cells stays open. *)
Example closing_bridges_short_break :
  let binary_clean := close_binary source_constants two_walls in
  pixel binary_clean 30 48 = Some OCCUPIED
  ∧ pixel binary_clean 30 49 = Some OCCUPIED
  ∧ pixel binary_clean 30 50 = Some OCCUPIED
  ∧ pixel binary_clean 70 35 = Some FREE
  ∧ pixel binary_clean 70 50 = Some FREE
  ∧ pixel binary_clean 70 64 = Some FREE.
Proof. vm_compute. done. Qed.

(** A hole the closing leaves open is not filled either: with a bound of 8
    pixels the hole of [wide_hole], 5 wide, 3 high and of area 15, is within
    both bounds, and the stage returns the grid as it is. *)
Example closed_hole_stays_open :
  let c := {| median_kernel := 3; morph_kernel := 5;
              MAX_GAP_SIZE := 40; RESOLUTION_CM_PER_PIXEL := 5 |} in
  close_binary c wide_hole = wide_hole
  ∧ fill_gaps c wide_hole = mret wide_hole.
Proof. split; vm_compute; done. Qed.

(** The whole of [process_map] on two images: the dark block, which the
    median filter and the closing turn into five OCCUPIED cells, comes back
    all FREE; of the ten dark pixels of the strip seven come back OCCUPIED,
    and a second run of the gap-fill stage would free three more. *)
Example process_map_dark_block :
  let binary_clean :=
    close_binary source_constants (binarize (cv2.medianBlur dark_block 3)) in
  pixel binary_clean 4 4 = Some OCCUPIED
  ∧ process_map sample_world "map1.png" None false
    = ([Mkdir "."], inr (blank 9 9)).
Proof. split; vm_compute; done. Qed.

Example process_map_strip :
  close_binary source_constants (binarize (cv2.medianBlur strip 3)) = column
  ∧ process_map sample_world "strip.png" None false
    = ([Mkdir "."], inr (replicate 8 [FREE] ++ replicate 7 [OCCUPIED]))
  ∧ fill_gaps source_constants (replicate 8 [FREE] ++ replicate 7 [OCCUPIED])
    = mret (replicate 11 [FREE] ++ replicate 4 [OCCUPIED]).
Proof. split; [|split]; vm_compute; done. Qed.

(** A colour image is decoded, and refused at line 42; a file that is not
    there, and a directory that cannot be made. *)
Example process_map_failures :
  process_map sample_world "photo.png" None true
  = ([Mkdir "."; Print (Loaded_image_with_shape [9; 9; 3])], inl cv2_error)
  ∧ process_map sample_world "none.png" (Some "out") true
    = ([Mkdir "out"], inl FileNotFoundError)
  ∧ process_map sample_world "map1.png" (Some "/proc/maps") true
    = ([Mkdir "/proc/maps"], inl OSError).
Proof. split; [|split]; vm_compute; done. Qed.

(** Truncation and floor agree on whether the bound is positive. *)
Lemma floor_nonpos_quot_nonpos (a b : Z) :
  b ≠ 0%Z → (a `div` b ≤ 0)%Z → (a `quot` b ≤ 0)%Z.
Proof.
  intros Hb Hdiv.
  destruct (decide (0 ≤ a)%Z), (decide (0 < b)%Z).
  - rewrite Z.quot_div_nonneg by lia. done.
  - replace b with (- - b)%Z by lia. rewrite Z.quot_opp_r by lia.
    pose proof (Z.quot_pos a (- b)). lia.
  - replace a with (- - a)%Z by lia. rewrite Z.quot_opp_l by lia.
    pose proof (Z.quot_pos (- a) b). lia.
  - replace a with (- - a)%Z in * by lia. replace b with (- - b)%Z in * by lia.
    rewrite Z.quot_opp_opp by lia. rewrite Z.div_opp_opp in Hdiv by lia.
    rewrite Z.quot_div_nonneg by lia. done.
Qed.

(** ** The binarizer *)

(** C6, as stated, fails at the threshold itself: a cell of intensity 1 is
    at or above 1 and becomes OCCUPIED. *)
Lemma binarize_at_threshold :
  let img_blur := [[1]]%Z in
  pixel img_blur 0 0 = Some 1%Z
  ∧ (1 ≥ 1)%Z
  ∧ pixel (binarize img_blur) 0 0 = Some OCCUPIED
  ∧ pixel (binarize img_blur) 0 0 ≠ Some FREE.
Proof.
  intros img_blur. split; [done|]. split; [lia|]. split; [done|].
  vm_compute. discriminate.
Qed.

(** C6, amended.  A cell of intensity at most 1 becomes OCCUPIED (255), a
    cell of intensity above 1 becomes FREE (0). *)
Theorem binarize_threshold (img_blur : grid) (y x : nat) (v : Z) :
  pixel img_blur y x = Some v →
  pixel (binarize img_blur) y x
  = Some (if bool_decide (v ≤ 1)%Z then OCCUPIED else FREE).
Proof.
  intros Hv. unfold binarize, cv2.threshold_BINARY_INV. simpl.
  rewrite pixel_fmap, Hv. simpl. f_equal.
  repeat case_bool_decide; done || lia.
Qed.

Lemma binarize_threshold_witness :
  pixel [[0; 1; 2]]%Z 0 1 = Some 1%Z
  ∧ pixel (binarize [[0; 1; 2]]%Z) 0 1 = Some OCCUPIED.
Proof.
  split; [done|]. apply (binarize_threshold [[0; 1; 2]]%Z 0 1 1). done.
Defined.


(** ** The claims about the gap-fill stage *)

(** C5.  When the bound in pixels is zero or negative (the division being
    defined), the gap-fill stage returns the closed grid it was given,
    unchanged, prints nothing and raises nothing; [process_map] then returns
    the closed binary grid. *)
Theorem fill_gaps_noop {dir} (c : constants) (binary_clean : grid)
    (img : grid) (debug : bool) (w : world dir) (input_path : string)
    (output_dir : option string) :
  RESOLUTION_CM_PER_PIXEL c ≠ 0%Z →
  (MAX_GAP_SIZE c `quot` RESOLUTION_CM_PER_PIXEL c ≤ 0)%Z →
  fill_gaps c binary_clean = mret binary_clean
  ∧ returned (process_image c (Some (Gray8 img)) debug)
    = inr (close_binary c (binarize (cv2.medianBlur img (median_kernel c))))
  ∧ (loads w input_path output_dir img →
     (process_map_with c w input_path output_dir debug).2
     = inr (close_binary c
              (binarize (cv2.medianBlur img (median_kernel c))))).
Proof.
  intros Hres HM.
  assert (Hfill : ∀ g, fill_gaps c g = mret g).
  { intros g. unfold fill_gaps, int_truediv.
    rewrite bool_decide_eq_false_2 by done. simpl.
    rewrite fill_gaps_px_empty_sweep by lia. done. }
  assert (Himg : returned (process_image c (Some (Gray8 img)) debug)
                 = inr (close_binary c
                          (binarize (cv2.medianBlur img (median_kernel c))))).
  { by rewrite process_image_gray, Hfill. }
  split; [apply Hfill|]. split; [done|].
  intros Hl. by rewrite (process_map_with_loads c w _ _ _ img Hl).
Qed.

Lemma fill_gaps_noop_witness :
  let c := {| median_kernel := 3; morph_kernel := 5;
              MAX_GAP_SIZE := 0; RESOLUTION_CM_PER_PIXEL := 5 |} in
  RESOLUTION_CM_PER_PIXEL c ≠ 0%Z
  ∧ (MAX_GAP_SIZE c `quot` RESOLUTION_CM_PER_PIXEL c ≤ 0)%Z
  ∧ fill_gaps c lone_cell = mret lone_cell.
Proof.
  intros c. split; [done|]. split; [done|].
  apply (fill_gaps_noop c lone_cell lone_cell false sample_world "map1.png"
           None); done.
Defined.

(** C7.  The test of line 70 is false at every kernel size of the loop, so
    its [break] is never taken: the stage returns the same grid as the loop
    without the test, and the loop builds one kernel for each size of its
    range, in order, none twice. *)
Theorem break_never_taken (c : constants) (MAX_GAP_PIXELS : Z)
    (binary_clean : grid) :
  fill_gaps_px c MAX_GAP_PIXELS binary_clean
  = fill_gaps_px_no_break c MAX_GAP_PIXELS binary_clean
  ∧ Forall (λ k, bound_reached MAX_GAP_PIXELS k = false)
      (kernel_sizes MAX_GAP_PIXELS)
  ∧ kernels_evaluated c MAX_GAP_PIXELS
    = (λ k, (k, morph_kernel c)) <$> kernel_sizes MAX_GAP_PIXELS
  ∧ NoDup (kernel_sizes MAX_GAP_PIXELS).
Proof.
  split; [apply fill_gaps_px_unfold|].
  split; [apply Forall_bound_not_reached|].
  split; [apply kernels_evaluated_eq|apply NoDup_kernel_sizes].
Qed.

(** C4, as stated, fails: with a bound of 4 pixels the loop builds the
    kernels of height 3, 5 and 7 and never one of height 2*4 + 1 = 9. *)
Lemma sweep_stops_before_2M_plus_1 :
  kernels_evaluated source_constants 4 = [(3, 5); (5, 5); (7, 5)]%Z
  ∧ (2 * 4 + 1, 5)%Z ∉ kernels_evaluated source_constants 4.
Proof.
  split; [done|]. intros H. vm_compute in H.
  repeat (apply elem_of_cons in H as [H|H]; [discriminate H|]).
  by apply elem_of_nil in H.
Qed.

(** C4, amended.  The loop builds the kernels of height 3, 5, ...,
    2*MAX_GAP_PIXELS - 1 (none when the bound is at most 1), each of width
    [morph_kernel] = 5, each once; a sweep only adds bits to the result. *)
Theorem sweep_range (c : constants) (MAX_GAP_PIXELS : Z)
    (inverted result : grid) (kernel_size : Z) (y x : nat) (v : Z) :
  dims result = dims inverted →
  pixel result y x = Some v →
  kernels_evaluated c MAX_GAP_PIXELS
  = (λ i, (3 + Z.of_nat i * 2, morph_kernel c)%Z)
      <$> seq 0 (Z.to_nat (MAX_GAP_PIXELS - 1))
  ∧ (∀ k, k ∈ kernel_sizes MAX_GAP_PIXELS
          ↔ (3 ≤ k ≤ 2 * MAX_GAP_PIXELS - 1)%Z ∧ Z.odd k = true)
  ∧ NoDup (kernels_evaluated c MAX_GAP_PIXELS)
  ∧ morph_kernel source_constants = 5%Z
  ∧ ∃ v', pixel (sweep_step c MAX_GAP_PIXELS inverted kernel_size result) y x
          = Some v'
          ∧ Z.lor v v' = v'.
Proof.
  intros Hd Hv.
  split. { rewrite kernels_evaluated_eq, range3_step_2.
           by rewrite <- list_fmap_compose. }
  split; [apply elem_of_kernel_sizes|].
  split. { rewrite kernels_evaluated_eq.
           apply NoDup_fmap_2; [|apply NoDup_kernel_sizes].
           intros k k' H. by injection H. }
  split; [done|].
  eexists. split; [by apply pixel_sweep_step|].
  destruct (gated _ _ _ _ _ _); [|apply Z.lor_diag].
  by rewrite Z.lor_assoc, Z.lor_diag.
Qed.

Lemma sweep_range_witness :
  dims (cv2.bitwise_not lone_cell) = dims (cv2.bitwise_not lone_cell)
  ∧ pixel (cv2.bitwise_not lone_cell) 2 3 = Some 0%Z
  ∧ kernels_evaluated source_constants 4 = [(3, 5); (5, 5); (7, 5)]%Z.
Proof.
  split; [done|]. split; [done|].
  apply (sweep_range source_constants 4 (cv2.bitwise_not lone_cell)
           (cv2.bitwise_not lone_cell) 3 2 3 0); done.
Defined.

(** With the constants of the source the bound is 4 pixels. *)
Lemma fill_gaps_source g :
  fill_gaps source_constants g = mret (fill_gaps_px source_constants 4 g).
Proof. reflexivity. Qed.

(** C2, as stated, fails: [lone_cell] is a closed binary grid, and the stage
    turns its one OCCUPIED cell into a FREE cell. *)
Lemma fill_gaps_frees_occupied_cell :
  close_binary source_constants lone_cell = lone_cell
  ∧ pixel lone_cell 2 3 = Some OCCUPIED
  ∧ fill_gaps source_constants lone_cell = mret (blank 5 7)
  ∧ pixel (fill_gaps_px source_constants 4 lone_cell) 2 3 = Some FREE.
Proof. split; [vm_compute; done|]. split; [done|]. split; vm_compute; done. Qed.

(** C2, amended.  The monotonicity holds in the other direction: every
    FREE cell of the closed grid is FREE in the returned grid, so the
    OCCUPIED cells of the returned grid are among those of the closed grid
    (no cell flips from FREE to OCCUPIED). *)
Theorem fill_gaps_only_frees (c : constants) (MAX_GAP_PIXELS : Z)
    (binary_clean : grid) (y x : nat) :
  binary binary_clean →
  (pixel binary_clean y x = Some FREE →
   pixel (fill_gaps_px c MAX_GAP_PIXELS binary_clean) y x = Some FREE)
  ∧ (pixel (fill_gaps_px c MAX_GAP_PIXELS binary_clean) y x = Some OCCUPIED →
     pixel binary_clean y x = Some OCCUPIED).
Proof.
  intros Hb. split; [apply free_stays_free|]. intros Hout.
  assert (is_Some (pixel binary_clean y x)) as [v Hv].
  { apply (pixel_same_dims (fill_gaps_px c MAX_GAP_PIXELS binary_clean));
      [apply dims_fill_gaps_px|by eexists]. }
  destruct (binary_pixel _ _ _ _ Hb Hv) as [-> | ->]; [|done].
  apply (free_stays_free c MAX_GAP_PIXELS) in Hv. rewrite Hv in Hout.
  unfold FREE, OCCUPIED in Hout. discriminate.
Qed.

Lemma binary_lone_cell : binary lone_cell.
Proof.
  unfold binary, lone_cell, FREE, OCCUPIED.
  repeat (apply Forall_cons; split); try apply Forall_nil; auto.
Qed.

Lemma fill_gaps_only_frees_witness :
  binary lone_cell
  ∧ (pixel lone_cell 0 0 = Some FREE →
     pixel (fill_gaps_px source_constants 4 lone_cell) 0 0 = Some FREE).
Proof.
  split; [exact binary_lone_cell|].
  exact (proj1 (fill_gaps_only_frees source_constants 4 lone_cell 0 0
                  binary_lone_cell)).
Defined.

(** The stage on the grids of the examples. *)
Lemma binary_walls_bridged : binary walls_bridged.
Proof.
  unfold binary, walls_bridged, wall_row.
  repeat first [ apply Forall_app_2 | apply Forall_replicate
               | apply Forall_cons_2 | apply Forall_nil_2
               | by left | by right ].
Qed.

Lemma close_binary_two_walls :
  close_binary source_constants two_walls = walls_bridged.
Proof. vm_compute. reflexivity. Qed.

Lemma fill_gaps_px_walls_bridged :
  fill_gaps_px source_constants 4 walls_bridged = walls_bridged.
Proof. rewrite fill_gaps_px_unfold. vm_compute. reflexivity. Qed.

Lemma wall_cell_not_cleared :
  pixel walls_bridged 30 49 = Some OCCUPIED
  ∧ pixel (candidate_gaps source_constants (cv2.bitwise_not walls_bridged) 3)
      30 49 = Some 255%Z
  ∧ cleared source_constants 4 walls_bridged 30 49 = false.
Proof. split; [|split]; vm_compute; reflexivity. Qed.

(** C1, as stated, fails.  The image [light_corner] reaches the gap-fill
    stage as [open_corner], which the closing leaves as it is.  Its FREE
    cells are one component 4 wide, 3 high and of area 11, within the bound
    of 4 pixels and the area of 16, and the stage does not fill it:
    [process_map] returns [open_corner].  A hole away from the border is not
    filled either: with a bound of 8 pixels the hole of [wide_hole], 5 wide,
    3 high and of area 15, is left by the closing and by the stage. *)
Lemma small_hole_stays_open :
  close_binary source_constants (binarize (cv2.medianBlur light_corner 3))
  = open_corner
  ∧ close_binary source_constants open_corner = open_corner
  ∧ (let '(num_labels, labels, stats) :=
       cv2.connectedComponentsWithStats (cv2.bitwise_not open_corner) in
     num_labels = 2%Z
     ∧ pixel labels 0 0 = Some 1
     ∧ cv2.CC_STAT_WIDTH (stats !!! 1) = 4%Z
     ∧ cv2.CC_STAT_HEIGHT (stats !!! 1) = 3%Z
     ∧ cv2.CC_STAT_AREA (stats !!! 1) = 11%Z)
  ∧ fill_gaps source_constants open_corner = mret open_corner
  ∧ process_map sample_world "corner.png" None false
    = ([Mkdir "."], inr open_corner)
  ∧ pixel open_corner 0 0 = Some FREE
  ∧ (let c := {| median_kernel := 3; morph_kernel := 5;
                 MAX_GAP_SIZE := 40; RESOLUTION_CM_PER_PIXEL := 5 |} in
     close_binary c wide_hole = wide_hole
     ∧ (let '(num_labels, labels, stats) :=
          cv2.connectedComponentsWithStats (cv2.bitwise_not wide_hole) in
        num_labels = 2%Z
        ∧ pixel labels 4 5 = Some 1
        ∧ cv2.CC_STAT_WIDTH (stats !!! 1) = 5%Z
        ∧ cv2.CC_STAT_HEIGHT (stats !!! 1) = 3%Z
        ∧ cv2.CC_STAT_AREA (stats !!! 1) = 15%Z)
     ∧ int_truediv (MAX_GAP_SIZE c) (RESOLUTION_CM_PER_PIXEL c) = mret 8%Z
     ∧ fill_gaps c wide_hole = mret wide_hole).
Proof.
  split; [vm_compute; reflexivity|]. split; [vm_compute; reflexivity|].
  split; [vm_compute; done|]. split; [vm_compute; reflexivity|].
  split; [vm_compute; reflexivity|]. split; [reflexivity|].
  split; [vm_compute; reflexivity|]. split; [vm_compute; done|].
  split; vm_compute; reflexivity.
Qed.

(** C1, amended.  The gate acts on the components of the candidate cells,
    not on holes.  At kernel size [k] a cell is a candidate exactly when it
    is OCCUPIED and a FREE cell lies under the [k] x 5 window centred on it;
    it is gated when its component of candidate cells is within both
    bounds; the returned cell is FREE when some kernel size of the sweep
    gates it, and is the input cell otherwise.  A FREE cell is therefore
    never filled, whatever the size of its hole.  On the grid of 100 x 100
    cells the break of 3 cells is bridged by the closing of line 37, before
    the stage, which then changes nothing: in the output the short break is
    closed and the break of 30 cells is open. *)
Theorem size_gate_on_candidates :
  (∀ (c : constants) (MAX_GAP_PIXELS : Z) (binary_clean : grid)
     (y x : nat) (v : Z),
     binary binary_clean →
     pixel binary_clean y x = Some v →
     pixel (fill_gaps_px c MAX_GAP_PIXELS binary_clean) y x
     = Some (if cleared c MAX_GAP_PIXELS binary_clean y x then FREE else v)
     ∧ (v = FREE →
        pixel (fill_gaps_px c MAX_GAP_PIXELS binary_clean) y x = Some FREE)
     ∧ (cleared c MAX_GAP_PIXELS binary_clean y x = true ↔
        ∃ k, k ∈ kernel_sizes MAX_GAP_PIXELS
             ∧ gated c MAX_GAP_PIXELS (cv2.bitwise_not binary_clean) k y x
               = true)
     ∧ (∀ k, (0 < k)%Z →
          pixel (candidate_gaps c (cv2.bitwise_not binary_clean) k) y x
          = Some 255%Z
          ↔ v = OCCUPIED ∧ reaches_free c binary_clean k y x)
     ∧ (∀ k, (0 < k)%Z →
          gated c MAX_GAP_PIXELS (cv2.bitwise_not binary_clean) k y x = true
          ↔ v = OCCUPIED
            ∧ reaches_free c binary_clean k y x
            ∧ ∃ i : Z,
                let '(num_gaps, gap_labels, gap_stats) :=
                  cv2.connectedComponentsWithStats
                    (candidate_gaps c (cv2.bitwise_not binary_clean) k) in
                (1 ≤ i < num_gaps)%Z
                ∧ pixel gap_labels y x = Some (Z.to_nat i)
                ∧ (Z.max (cv2.CC_STAT_WIDTH (gap_stats !!! Z.to_nat i))
                         (cv2.CC_STAT_HEIGHT (gap_stats !!! Z.to_nat i))
                   ≤ MAX_GAP_PIXELS)%Z
                ∧ (cv2.CC_STAT_AREA (gap_stats !!! Z.to_nat i)
                   ≤ MAX_GAP_PIXELS ^ 2)%Z)
     ∧ (cleared c MAX_GAP_PIXELS binary_clean y x = true →
        v = OCCUPIED
        ∧ ∃ k, k ∈ kernel_sizes MAX_GAP_PIXELS
               ∧ reaches_free c binary_clean k y x))
  ∧ (shape two_walls = (100, 100)
     ∧ close_binary source_constants two_walls = walls_bridged
     ∧ fill_gaps source_constants walls_bridged = mret walls_bridged
     ∧ (∀ x, 48 ≤ x < 51 →
          pixel two_walls 30 x = Some FREE
          ∧ pixel walls_bridged 30 x = Some OCCUPIED)
     ∧ (∀ x, 35 ≤ x < 65 →
          pixel two_walls 70 x = Some FREE
          ∧ pixel walls_bridged 70 x = Some FREE)).
Proof.
  split.
  - intros c MAX_GAP_PIXELS binary_clean y x v Hb Hv.
    split; [|split; [|split; [|split; [|split]]]].
    + apply pixel_fill_gaps_px; [done|]. by eapply binary_uint8.
    + intros ->. by apply free_stays_free.
    + apply cleared_spec.
    + intros k Hk.
      apply (candidate_gaps_spec c binary_clean k y x v Hb Hk Hv).
    + intros k Hk. split.
      * intros Hg.
        destruct (gated_candidate c MAX_GAP_PIXELS binary_clean k y x v)
          as [Hocc Hreach]; [done..|].
        split; [done|]. split; [done|]. by apply gated_spec.
      * intros (_ & _ & Hi). by apply gated_spec.
    + intros (k & Hk & Hg)%cleared_spec.
      pose proof Hk as [Hk3 _]%elem_of_kernel_sizes.
      destruct (gated_candidate c MAX_GAP_PIXELS binary_clean k y x v)
        as [Hocc Hreach]; [done|lia|done|done|].
      split; [done|]. by exists k.
  - split; [reflexivity|]. split; [apply close_binary_two_walls|].
    split; [by rewrite fill_gaps_source, fill_gaps_px_walls_bridged|].
    split.
    + intros x Hx.
      assert (x = 48 ∨ x = 49 ∨ x = 50) as [->|[->| ->]] by lia;
        split; reflexivity.
    + intros x Hx.
      do 35 (destruct x as [|x]; [lia|]).
      do 30 (destruct x as [|x]; [split; reflexivity|]). lia.
Qed.

Lemma size_gate_on_candidates_witness :
  binary lone_cell
  ∧ pixel lone_cell 2 3 = Some OCCUPIED
  ∧ cleared source_constants 4 lone_cell 2 3 = true
  ∧ pixel (fill_gaps_px source_constants 4 lone_cell) 2 3
    = Some (if cleared source_constants 4 lone_cell 2 3
            then FREE else OCCUPIED)
  ∧ binary walls_bridged
  ∧ pixel walls_bridged 30 49 = Some OCCUPIED
  ∧ cleared source_constants 4 walls_bridged 30 49 = false
  ∧ pixel (fill_gaps_px source_constants 4 walls_bridged) 30 49
    = Some (if cleared source_constants 4 walls_bridged 30 49
            then FREE else OCCUPIED).
Proof.
  split; [exact binary_lone_cell|]. split; [reflexivity|].
  split; [vm_compute; reflexivity|].
  split; [exact (proj1 (proj1 size_gate_on_candidates source_constants 4%Z
                          lone_cell 2 3 OCCUPIED binary_lone_cell eq_refl))|].
  split; [exact binary_walls_bridged|].
  split; [exact (proj1 wall_cell_not_cleared)|].
  split; [exact (proj2 (proj2 wall_cell_not_cleared))|].
  exact (proj1 (proj1 size_gate_on_candidates source_constants 4%Z
                  walls_bridged 30 49 OCCUPIED binary_walls_bridged
                  (proj1 wall_cell_not_cleared))).
Defined.

(** C3, as stated, fails: on the closed binary grid [column] the first pass
    frees three cells and the second pass three more. *)
Lemma second_pass_changes_column :
  close_binary source_constants column = column
  ∧ fill_gaps_px source_constants 4 column
    = replicate 8 [FREE] ++ replicate 7 [OCCUPIED]
  ∧ fill_gaps_px source_constants 4 (fill_gaps_px source_constants 4 column)
    = replicate 11 [FREE] ++ replicate 4 [OCCUPIED]
  ∧ fill_gaps_px source_constants 4 (fill_gaps_px source_constants 4 column)
    ≠ fill_gaps_px source_constants 4 column.
Proof. split; [|split; [|split]]; vm_compute; done. Qed.

(** C3, amended.  A second pass keeps the shape and every FREE cell of the
    first pass's result, so it can only free further cells; it is the
    identity when the bound is at most 1 pixel, where no kernel is swept. *)
Theorem refill_only_frees (c : constants) (MAX_GAP_PIXELS : Z)
    (binary_clean : grid) (y x : nat) :
  let once := fill_gaps_px c MAX_GAP_PIXELS binary_clean in
  let twice := fill_gaps_px c MAX_GAP_PIXELS once in
  dims twice = dims once
  ∧ (pixel once y x = Some FREE → pixel twice y x = Some FREE)
  ∧ ((MAX_GAP_PIXELS ≤ 1)%Z → twice = once).
Proof.
  intros once twice. split; [apply dims_fill_gaps_px|].
  split; [apply free_stays_free|]. apply fill_gaps_px_empty_sweep.
Qed.

Lemma refill_only_frees_witness :
  let once := fill_gaps_px source_constants 4 column in
  let twice := fill_gaps_px source_constants 4 once in
  pixel once 6 0 = Some FREE ∧ pixel twice 6 0 = Some FREE.
Proof.
  intros once twice.
  assert (H : pixel once 6 0 = Some FREE) by (vm_compute; done).
  split; [exact H|].
  exact (proj1 (proj2 (refill_only_frees source_constants 4 column 6 0)) H).
Defined.


(** ** The debug flag *)

Lemma process_image_debug c file :
  process_image c file true
  = ((if file is Some img
      then [Loaded_image_with_shape (decoded_shape img)] else [])
     ++ printed (process_image c file false),
     returned (process_image c file false))
  ∧ printed (process_image c file false) = [].
Proof.
  destruct file as [[g|s reaches]|]; [| |done].
  - rewrite !process_image_gray. split; [done|].
    unfold fill_gaps, int_truediv. by case_bool_decide.
  - unfold process_image, int_truediv.
    destruct reaches; [|done]. by case_bool_decide.
Qed.

(** C9.  With and without [debug], [process_map] and [canny] return the
    same grid (or raise the same exception); the flag only decides what is
    printed, and nothing is printed without it: all that [process_map] does
    then is to make the output directory. *)
Theorem debug_only_prints {dir} (cv : cv2_edges) (c : constants)
    (w : world dir) (input_path : string) (output_dir : option string)
    (file : option decoded) (img : image) :
  (process_map w input_path output_dir true).2
  = (process_map w input_path output_dir false).2
  ∧ (process_map_with c w input_path output_dir true).2
    = (process_map_with c w input_path output_dir false).2
  ∧ returned (process_image c file true)
    = returned (process_image c file false)
  ∧ returned (canny cv img true) = returned (canny cv img false)
  ∧ (process_map_with c w input_path output_dir false).1
    = [Mkdir (output_directory w input_path output_dir)]
  ∧ printed (process_image c file false) = []
  ∧ printed (canny cv img false) = [].
Proof.
  assert (H : ∀ c debug,
             (process_map_with c w input_path output_dir debug).2
             = if mkdir w (output_directory w input_path output_dir)
               then returned (process_image c (imread w input_path) false)
               else inl OSError).
  { intros c' debug. unfold process_map_with.
    destruct (mkdir w _); [|done].
    destruct debug; [|by destruct (process_image c' _ false)].
    rewrite (proj1 (process_image_debug c' _)). done. }
  split; [unfold process_map; by rewrite !H|].
  split; [by rewrite !H|].
  split; [by rewrite (proj1 (process_image_debug c file))|].
  split; [unfold canny; by destruct (canny_lines cv img)|].
  split; [|split].
  - unfold process_map_with. destruct (mkdir w _); [|done].
    pose proof (proj2 (process_image_debug c (imread w input_path))) as Hp.
    destruct (process_image c _ false) as [out r]. simpl in Hp.
    by subst out.
  - apply process_image_debug.
  - unfold canny. by destruct (canny_lines cv img).
Qed.

(** ** Shapes *)

Lemma dims_cvtColor_GRAY2BGR g : dims (cv2.cvtColor_GRAY2BGR g) = dims g.
Proof. apply dims_fmap. Qed.

Lemma dims_binarize g : dims (binarize g) = dims g.
Proof. apply dims_threshold. Qed.

Lemma dims_close_binary c g : dims (close_binary c g) = dims g.
Proof. apply dims_morphologyEx_CLOSE. Qed.

Section canny_shapes.
Context (cv : cv2_edges) (laws : shape_laws cv).

Lemma dims_to_gray img : dims (to_gray cv img) = image_dims img.
Proof. destruct img; [done|]. apply (dims_cvtColor_BGR2GRAY cv laws). Qed.

Lemma dims_canny_edges img : dims (canny_edges cv img) = image_dims img.
Proof.
  unfold canny_edges. cbv zeta.
  by rewrite (dims_Canny cv laws), (dims_GaussianBlur cv laws), dims_to_gray.
Qed.

Lemma dims_draw_lines result lines :
  dims (draw_lines cv result lines) = dims result.
Proof.
  unfold draw_lines. revert result.
  induction lines as [|[[[x1 y1] x2] y2] lines IH]; intros result; [done|].
  simpl. rewrite IH. apply (dims_line cv laws).
Qed.

Lemma canny_returns img debug :
  ∃ result, returned (canny cv img debug) = inr result
            ∧ dims result = image_dims img.
Proof.
  unfold canny. destruct (canny_lines cv img) as [lines|].
  - exists (draw_lines cv (cv2.cvtColor_GRAY2BGR (canny_edges cv img)) lines).
    split; [by destruct debug|].
    by rewrite dims_draw_lines, dims_cvtColor_GRAY2BGR, dims_canny_edges.
  - exists (cv2.cvtColor_GRAY2BGR (canny_edges cv img)).
    split; [by destruct debug|].
    by rewrite dims_cvtColor_GRAY2BGR, dims_canny_edges.
Qed.
End canny_shapes.

Lemma process_image_returns c img debug :
  RESOLUTION_CM_PER_PIXEL c ≠ 0%Z →
  ∃ out, returned (process_image c (Some (Gray8 img)) debug) = inr out
         ∧ dims out = dims img.
Proof.
  intros Hres. eexists. split.
  - rewrite process_image_gray. unfold fill_gaps, int_truediv.
    rewrite bool_decide_eq_false_2 by done. done.
  - by rewrite dims_fill_gaps_px, dims_close_binary, dims_binarize,
      dims_medianBlur.
Qed.

(** C10.  For a decoded H x W image, every stage of [process_map] yields an
    H x W grid and [process_map] returns one; [canny] returns an H x W image
    for an H x W argument, the edge primitives keeping the shape. *)
Theorem shape_preserved {dir} (cv : cv2_edges) (h w : nat) (img : grid)
    (arg : image) (debug : bool) (env : world dir) (input_path : string)
    (output_dir : option string) :
  shape_laws cv →
  rect h w img →
  image_dims arg = replicate h w →
  let img_blur := cv2.medianBlur img 3 in
  let binary := binarize img_blur in
  let binary_clean := close_binary source_constants binary in
  rect h w img_blur ∧ rect h w binary ∧ rect h w binary_clean
  ∧ rect h w (fill_gaps_px source_constants 4 binary_clean)
  ∧ (∃ out,
       returned (process_image source_constants (Some (Gray8 img)) debug)
       = inr out
       ∧ (loads env input_path output_dir img →
          (process_map env input_path output_dir debug).2 = inr out)
       ∧ rect h w out)
  ∧ (∃ result, returned (canny cv arg debug) = inr result
               ∧ rect h w result)
  ∧ (∃ out result,
       returned (process_image source_constants (Some (Gray8 img)) debug)
       = inr out
       ∧ (loads env input_path output_dir img →
          (process_map env input_path output_dir debug).2 = inr out)
       ∧ returned (canny cv (Gray out) debug) = inr result
       ∧ rect h w result).
Proof.
  intros laws Himg Harg img_blur binary binary_clean.
  assert (H1 : rect h w img_blur) by (eapply rect_dims, Himg; apply dims_medianBlur).
  assert (H2 : rect h w binary) by (eapply rect_dims, H1; apply dims_binarize).
  assert (H3 : rect h w binary_clean)
    by (eapply rect_dims, H2; apply dims_close_binary).
  destruct (process_image_returns source_constants img debug)
    as (out & Hout & Hd); [done|].
  assert (Hmap : loads env input_path output_dir img →
                 (process_map env input_path output_dir debug).2 = inr out).
  { intros Hl. unfold process_map.
    by rewrite (process_map_with_loads _ env _ _ _ img Hl). }
  assert (H4 : rect h w out) by (by eapply rect_dims, Himg).
  split; [done|]. split; [done|]. split; [done|].
  split; [eapply rect_dims, H3; apply dims_fill_gaps_px|].
  split; [by exists out|].
  split.
  - destruct (canny_returns cv laws arg debug) as (result & Hr & Hdr).
    exists result. split; [done|]. unfold rect. by rewrite Hdr.
  - destruct (canny_returns cv laws (Gray out) debug) as (result & Hr & Hdr).
    exists out, result. split; [done|]. split; [done|]. split; [done|].
    unfold rect. by rewrite Hdr.
Qed.

(** ** Blank images *)

Lemma pixel_blank h w y x v : pixel (blank h w) y x = Some v → v = FREE.
Proof.
  unfold pixel, blank. intros H.
  destruct (replicate h _ !! y) as [row|] eqn:Hrow; simpl in H; [|done].
  apply lookup_replicate in Hrow as [-> _].
  by apply lookup_replicate in H as [-> _].
Qed.

Lemma gmapi_fixed {A} (f : nat → nat → A → A) (g : list (list A)) :
  (∀ y x v, pixel g y x = Some v → f y x v = v) → gmapi f g = g.
Proof.
  intros H. apply grid_ext; [apply dims_gmapi|]. intros y x.
  rewrite pixel_gmapi. destruct (pixel g y x) as [v|] eqn:Hv; [|done].
  simpl. by rewrite (H _ _ _ Hv).
Qed.

Lemma concat_imap_nil {A B} (f : nat → A → list B) (l : list A) :
  (∀ i a, l !! i = Some a → f i a = []) → concat (imap f l) = [].
Proof.
  revert f. induction l as [|a l IH]; intros f H; [done|].
  simpl. rewrite (H 0 a) by done. simpl. apply IH.
  intros i b Hi. by apply (H (S i)).
Qed.

(** ** The small implementation meets the laws *)

Lemma get_blank h w y x : reference.get (blank h w) y x = 0%Z.
Proof.
  unfold reference.get.
  destruct (pixel (blank h w) y x) as [v|] eqn:Hv; [|done].
  by apply pixel_blank in Hv as ->.
Qed.

Lemma weighted_sum_blank h w taps y x :
  reference.weighted_sum (blank h w) taps y x = 0%Z.
Proof.
  unfold reference.weighted_sum.
  induction taps as [|[[dy dx] k] taps IH]; [done|].
  simpl. rewrite IH, get_blank. lia.
Qed.

Lemma reference_blank_laws : blank_laws reference.cv.
Proof.
  split; intros h w; simpl.
  - apply gmapi_fixed. intros y x v Hv. apply pixel_blank in Hv as ->.
    by rewrite weighted_sum_blank.
  - apply gmapi_fixed. intros y x v Hv. apply pixel_blank in Hv as ->.
    by rewrite !weighted_sum_blank.
  - unfold reference.row_segments. rewrite concat_imap_nil; [done|].
    intros y row Hrow. apply lookup_replicate in Hrow as [-> _].
    unfold reference.row_segment. rewrite concat_imap_nil; [done|].
    intros x v Hv. by apply lookup_replicate in Hv as [-> _].
Qed.

Lemma dims_put {A} (img : list (list A)) y x colour :
  dims (alter (λ row, <[x := colour]> row) y img) = dims img.
Proof.
  unfold dims. apply list_eq. intros i.
  rewrite !list_lookup_fmap. destruct (decide (i = y)) as [->|Hne].
  - rewrite list_lookup_alter_eq. destruct (img !! y); simpl; [|done].
    by rewrite length_insert.
  - by rewrite list_lookup_alter_ne.
Qed.

Lemma reference_shape_laws : shape_laws reference.cv.
Proof.
  split; simpl.
  - intros c. apply dims_fmap.
  - intros g ksize sigma. apply dims_gmapi.
  - intros g lo hi. apply dims_gmapi.
  - intros img p q colour thickness. unfold reference.sampled_line.
    generalize (py.range 0 (Z.max 1 (Z.max (Z.abs (q.1 - p.1))
                                          (Z.abs (q.2 - p.2))) + 1)).
    intros ts. revert img. induction ts as [|t ts IH]; intros img; [done|].
    simpl. rewrite IH. unfold reference.put.
    case_bool_decide; [apply dims_put|done].
Qed.

(** ** The edge extractor on a blank image *)

(** C8.  On an all-FREE grid the edge grid is all zero, no segment is
    detected, and the returned image is the all-zero colour image: no line
    is drawn.  The edge primitives are assumed to find nothing in a blank
    image ([blank_laws]). *)
Theorem canny_blank (cv : cv2_edges) (h w : nat) (debug : bool) :
  blank_laws cv →
  canny_edges cv (Gray (blank h w)) = blank h w
  ∧ canny_lines cv (Gray (blank h w)) = None
  ∧ returned (canny cv (Gray (blank h w)) debug)
    = inr (replicate h (replicate w (0, 0, 0)%Z))
  ∧ printed (canny cv (Gray (blank h w)) debug)
    = (if debug then [No_lines_detected] else []).
Proof.
  intros laws.
  assert (He : canny_edges cv (Gray (blank h w)) = blank h w).
  { unfold canny_edges. simpl.
    by rewrite (GaussianBlur_blank cv laws), (Canny_blank cv laws). }
  assert (Hl : canny_lines cv (Gray (blank h w)) = None).
  { unfold canny_lines. cbv zeta. rewrite He.
    apply (HoughLinesP_blank cv laws). }
  split; [done|]. split; [done|].
  unfold canny. rewrite Hl, He.
  assert (Hz : cv2.cvtColor_GRAY2BGR (blank h w)
               = replicate h (replicate w (0, 0, 0)%Z)).
  { unfold cv2.cvtColor_GRAY2BGR, blank. by rewrite !fmap_replicate. }
  rewrite Hz. by destruct debug.
Qed.

Lemma canny_blank_witness :
  blank_laws reference.cv
  ∧ returned (canny reference.cv (Gray (blank 2 3)) true)
    = inr [[(0, 0, 0); (0, 0, 0); (0, 0, 0)];
           [(0, 0, 0); (0, 0, 0); (0, 0, 0)]]%Z.
Proof.
  split; [exact reference_blank_laws|].
  exact (proj1 (proj2 (proj2
    (canny_blank reference.cv 2 3 true reference_blank_laws)))).
Defined.

Lemma shape_preserved_witness :
  shape_laws reference.cv
  ∧ rect 9 9 dark_block
  ∧ image_dims (Gray dark_block) = replicate 9 9
  ∧ loads sample_world "map1.png" None dark_block
  ∧ ∃ out, (process_map sample_world "map1.png" None false).2 = inr out
           ∧ rect 9 9 out.
Proof.
  assert (Hl : loads sample_world "map1.png" None dark_block) by done.
  split; [exact reference_shape_laws|]. split; [reflexivity|].
  split; [reflexivity|]. split; [exact Hl|].
  destruct (proj1 (proj2 (proj2 (proj2 (proj2
    (shape_preserved reference.cv 9 9 dark_block (Gray dark_block) false
       sample_world "map1.png" None
       reference_shape_laws eq_refl eq_refl))))))
    as (out & _ & Hmap & Hrect).
  exists out. split; [exact (Hmap Hl)|exact Hrect].
Defined.


(** * Further properties of the code *)

(** ** The returned map is binary *)

Lemma binary_pixels g :
  binary g ↔ ∀ y x v, pixel g y x = Some v → v = FREE ∨ v = OCCUPIED.
Proof.
  split; [intros Hb y x v; by apply binary_pixel|].
  intros H. apply Forall_lookup. intros y row Hrow.
  apply Forall_lookup. intros x v Hv. apply (H y x). unfold pixel.
  by rewrite Hrow.
Qed.

Lemma binary_binarize g : binary (binarize g).
Proof.
  apply binary_pixels. intros y x v. unfold binarize, cv2.threshold_BINARY_INV.
  simpl. rewrite pixel_fmap. destruct (pixel g y x); [|done]. simpl.
  intros [= <-]. case_bool_decide; [by left|by right].
Qed.

Lemma foldr_min_binary (vs : list Z) :
  (∀ v, v ∈ vs → v = 0%Z ∨ v = 255%Z) →
  foldr Z.min 255%Z vs = 0%Z ∨ foldr Z.min 255%Z vs = 255%Z.
Proof.
  induction vs as [|a vs IH]; intros Hvs; [by right|].
  cbn [foldr]. destruct IH as [-> | ->].
  - intros v Hv. apply Hvs. by right.
  - destruct (Hvs a) as [-> | ->]; [by left|by left|by left].
  - destruct (Hvs a) as [-> | ->]; [by left|by left|by right].
Qed.

Lemma window_binary g offs y x v :
  binary g → v ∈ cv2.window g offs y x → v = 0%Z ∨ v = 255%Z.
Proof.
  intros Hb Hv. apply elem_of_window in Hv as (dy & dx & _ & Hv).
  apply pixelZ_Some in Hv as (_ & _ & Hv). by eapply binary_pixel.
Qed.

Lemma binary_dilate g kernel : binary g → binary (cv2.dilate g kernel).
Proof.
  intros Hb. apply binary_pixels. intros y x v. rewrite pixel_dilate.
  destruct (pixel g y x); [|done]. simpl. intros [= <-].
  rewrite foldr_max_binary by (intros u; by apply window_binary).
  case_bool_decide; [by right|by left].
Qed.

Lemma pixel_erode src kernel y x :
  pixel (cv2.erode src kernel) y x =
  (λ _, foldr Z.min 255%Z (cv2.window src (cv2.kernel_offsets kernel) y x))
    <$> pixel src y x.
Proof. apply pixel_gmapi. Qed.

Lemma binary_erode g kernel : binary g → binary (cv2.erode g kernel).
Proof.
  intros Hb. apply binary_pixels. intros y x v. rewrite pixel_erode.
  destruct (pixel g y x); [|done]. simpl. intros [= <-].
  apply foldr_min_binary. intros u. by apply window_binary.
Qed.

Lemma binary_close_binary c g : binary g → binary (close_binary c g).
Proof. intros Hb. by apply binary_erode, binary_dilate. Qed.

Lemma binary_fill_gaps_px c M g : binary g → binary (fill_gaps_px c M g).
Proof.
  intros Hb. apply binary_pixels. intros y x v Hv.
  assert (is_Some (pixel g y x)) as [u Hu].
  { apply (pixel_same_dims (fill_gaps_px c M g));
      [apply dims_fill_gaps_px|by eexists]. }
  rewrite (pixel_fill_gaps_px c M g y x u Hu) in Hv
    by (by eapply binary_uint8).
  injection Hv as <-. destruct (cleared _ _ _ _ _); [by left|].
  by eapply binary_pixel.
Qed.

Lemma process_image_source img debug :
  returned (process_image source_constants (Some (Gray8 img)) debug)
  = inr (fill_gaps_px source_constants 4
           (close_binary source_constants
              (binarize (cv2.medianBlur img 3)))).
Proof. by rewrite process_image_gray, fill_gaps_source. Qed.

(** What [process_map] returns, if it returns, when the directory is
    made. *)
Lemma process_map_made_returns {dir} (w : world dir) input_path output_dir
    debug out :
  mkdir w (output_directory w input_path output_dir) = true →
  (process_map w input_path output_dir debug).2 = inr out →
  ∃ img, imread w input_path = Some (Gray8 img)
         ∧ out = fill_gaps_px source_constants 4
                   (close_binary source_constants
                      (binarize (cv2.medianBlur img 3))).
Proof.
  intros Hm. unfold process_map. rewrite process_map_with_made by done.
  destruct (imread w input_path) as [[img|s reaches]|].
  - rewrite process_image_source. intros [= <-]. by exists img.
  - unfold process_image. by destruct debug, reaches.
  - done.
Qed.

(** X1. When the output directory can be made and the file decodes to a
    single-channel 8-bit image, [process_map] returns, whatever the
    intensities; and whenever [process_map] returns, the file was such an
    image and the grid returned has its shape and holds only the two
    occupancy values. *)
Theorem process_map_returns_binary {dir} (w : world dir)
    (input_path : string) (output_dir : option string) (debug : bool) :
  (∀ img, loads w input_path output_dir img →
          ∃ out, (process_map w input_path output_dir debug).2 = inr out)
  ∧ (∀ out, (process_map w input_path output_dir debug).2 = inr out →
            ∃ img, loads w input_path output_dir img
                   ∧ dims out = dims img
                   ∧ binary out).
Proof.
  split.
  - intros img Hl. unfold process_map.
    rewrite (process_map_with_loads _ w _ _ _ img Hl).
    rewrite process_image_source. by eexists.
  - intros out Hout.
    destruct (mkdir w (output_directory w input_path output_dir)) eqn:Hm.
    2: { unfold process_map, process_map_with in Hout.
         by rewrite Hm in Hout. }
    destruct (process_map_made_returns w _ _ _ out Hm Hout)
      as (img & Hi & ->).
    exists img. split; [done|]. split.
    + by rewrite dims_fill_gaps_px, dims_close_binary, dims_binarize,
        dims_medianBlur.
    + apply binary_fill_gaps_px, binary_close_binary, binary_binarize.
Qed.


(** ** The closing keeps every obstacle *)

Lemma foldr_min_init (init : Z) (vs : list Z) :
  (∀ v, v ∈ vs → init ≤ v)%Z → foldr Z.min init vs = init.
Proof.
  induction vs as [|a vs IH]; intros Hvs; [done|].
  cbn [foldr]. rewrite IH by (intros v Hv; apply Hvs; by right).
  pose proof (Hvs a). apply Z.min_r. apply H. by left.
Qed.

Lemma foldr_min_lower (init lo : Z) (vs : list Z) :
  (lo ≤ init)%Z → (∀ v, v ∈ vs → lo ≤ v)%Z → (lo ≤ foldr Z.min init vs)%Z.
Proof.
  intros Hinit. induction vs as [|a vs IH]; intros Hvs; [done|].
  cbn [foldr]. apply Z.min_glb; [apply Hvs; by left|].
  apply IH. intros v Hv. apply Hvs. by right.
Qed.

(** The window of an all-ones kernel of odd height and width is symmetric
    about its anchor. *)
Lemma kernel_offsets_ones_opp rows cols dy dx :
  (0 < rows)%Z → Z.odd rows = true → Z.odd cols = true →
  (dy, dx) ∈ cv2.kernel_offsets (np.ones rows cols) →
  (- dy, - dx)%Z ∈ cv2.kernel_offsets (np.ones rows cols).
Proof.
  intros Hrows Hr Hc. rewrite !elem_of_kernel_offsets_ones by done.
  apply Zodd_bool_iff, Zodd_ex_iff in Hr as [r ->].
  apply Zodd_bool_iff, Zodd_ex_iff in Hc as [c ->].
  replace ((2 * r + 1) `div` 2)%Z with r
    by (apply Z.div_unique with 1%Z; lia).
  replace ((2 * c + 1) `div` 2)%Z with c
    by (apply Z.div_unique with 1%Z; lia).
  lia.
Qed.

Lemma close_binary_lower (c : constants) (binary : grid) (y x : nat)
    (v : Z) :
  (0 < median_kernel c)%Z → Z.odd (median_kernel c) = true →
  Z.odd (morph_kernel c) = true →
  pixel binary y x = Some v → (v ≤ 255)%Z →
  ∃ u, pixel (close_binary c binary) y x = Some u ∧ (v ≤ u)%Z.
Proof.
  intros Hrows Hr Hc Hv Hv255.
  unfold close_binary, cv2.morphologyEx_CLOSE. cbv zeta.
  set (kernel := np.ones (median_kernel c) (morph_kernel c)).
  rewrite pixel_erode, pixel_dilate, Hv. simpl. eexists. split; [done|].
  apply foldr_min_lower; [done|]. intros u Hu.
  apply elem_of_window in Hu as (dy & dx & Hoff & Hu).
  pose proof Hu as Hu'. apply pixelZ_Some in Hu' as (Hy & Hx & Hu').
  rewrite pixel_dilate in Hu'.
  destruct (pixel binary (Z.to_nat _) (Z.to_nat _)); [|done].
  simpl in Hu'. injection Hu' as <-.
  apply foldr_max_ge. apply elem_of_window.
  exists (- dy)%Z, (- dx)%Z. split.
  - by apply kernel_offsets_ones_opp.
  - rewrite !Z2Nat.id by done.
    replace (Z.of_nat y + dy + - dy)%Z with (Z.of_nat y) by lia.
    replace (Z.of_nat x + dx + - dx)%Z with (Z.of_nat x) by lia.
    by rewrite pixelZ_of_nat.
Qed.

(** X2. Dilation followed by erosion never lowers a pixel: in particular every
    OCCUPIED cell of the binary grid is OCCUPIED after the closing of line 37. *)
Theorem closing_keeps_occupied (c : constants) (binary : grid) (y x : nat)
    (v : Z) :
  (0 < median_kernel c)%Z → Z.odd (median_kernel c) = true →
  Z.odd (morph_kernel c) = true →
  pixel binary y x = Some v → (v ≤ 255)%Z →
  ∃ u, pixel (close_binary c binary) y x = Some u ∧ (v ≤ u)%Z.
Proof. apply close_binary_lower. Qed.

Lemma closing_keeps_occupied_witness :
  (0 < median_kernel source_constants)%Z
  ∧ Z.odd (median_kernel source_constants) = true
  ∧ Z.odd (morph_kernel source_constants) = true
  ∧ pixel lone_cell 2 3 = Some OCCUPIED
  ∧ (OCCUPIED ≤ 255)%Z
  ∧ ∃ u, pixel (close_binary source_constants lone_cell) 2 3 = Some u
         ∧ (OCCUPIED ≤ u)%Z.
Proof.
  split; [done|]. split; [done|]. split; [done|]. split; [done|].
  split; [done|].
  apply (closing_keeps_occupied source_constants lone_cell 2 3 OCCUPIED);
    done.
Defined.


(** ** The gap-fill stage acts next to FREE space only *)

(** X3. A cell the stage changes was OCCUPIED, and some FREE cell lies at most
    [MAX_GAP_PIXELS - 1] rows and half a kernel width (2 columns for the width
    5 of the source) away from it. *)
Theorem fill_gaps_changes_near_free (c : constants) (MAX_GAP_PIXELS : Z)
    (binary_clean : grid) (y x : nat) (v : Z) :
  binary binary_clean →
  Z.odd (morph_kernel c) = true →
  pixel binary_clean y x = Some v →
  pixel (fill_gaps_px c MAX_GAP_PIXELS binary_clean) y x ≠ Some v →
  v = OCCUPIED
  ∧ pixel (fill_gaps_px c MAX_GAP_PIXELS binary_clean) y x = Some FREE
  ∧ ∃ dy dx : Z,
      (Z.abs dy ≤ MAX_GAP_PIXELS - 1)%Z
      ∧ (Z.abs dx ≤ morph_kernel c `div` 2)%Z
      ∧ pixelZ binary_clean (Z.of_nat y + dy) (Z.of_nat x + dx) = Some FREE.
Proof.
  intros Hb Hodd Hv Hne.
  rewrite (pixel_fill_gaps_px c MAX_GAP_PIXELS binary_clean y x v Hv) in Hne |- *
    by (by eapply binary_uint8).
  destruct (cleared c MAX_GAP_PIXELS binary_clean y x) eqn:Hcl; [|done].
  apply cleared_spec in Hcl as (k & Hk & Hg).
  apply elem_of_kernel_sizes in Hk as [Hk Hkodd].
  destruct (gated_candidate c MAX_GAP_PIXELS binary_clean k y x v)
    as [-> (dy & dx & Hdy & Hdx & Hfree)]; [done|lia|done|done|].
  split; [done|]. split; [done|]. exists dy, dx.
  apply Zodd_bool_iff, Zodd_ex_iff in Hkodd as [r ->].
  apply Zodd_bool_iff, Zodd_ex_iff in Hodd as [w Hw].
  rewrite Hw in Hdx |- *.
  replace ((2 * r + 1) `div` 2)%Z with r in Hdy
    by (apply Z.div_unique with 1%Z; lia).
  replace ((2 * w + 1) `div` 2)%Z with w in Hdx |- *
    by (apply Z.div_unique with 1%Z; lia).
  split; [lia|]. split; [lia|done].
Qed.

Lemma fill_gaps_changes_near_free_witness :
  binary lone_cell
  ∧ Z.odd (morph_kernel source_constants) = true
  ∧ pixel lone_cell 2 3 = Some OCCUPIED
  ∧ pixel (fill_gaps_px source_constants 4 lone_cell) 2 3 ≠ Some OCCUPIED
  ∧ pixel (fill_gaps_px source_constants 4 lone_cell) 2 3 = Some FREE.
Proof.
  assert (Hne : pixel (fill_gaps_px source_constants 4 lone_cell) 2 3
                ≠ Some OCCUPIED) by (vm_compute; discriminate).
  split; [exact binary_lone_cell|]. split; [done|]. split; [done|].
  split; [exact Hne|].
  exact (proj1 (proj2 (fill_gaps_changes_near_free source_constants 4
                         lone_cell 2 3 OCCUPIED binary_lone_cell eq_refl
                         eq_refl Hne))).
Defined.

Lemma fill_gaps_px_no_free (c : constants) (MAX_GAP_PIXELS : Z)
    (binary_clean : grid) :
  binary binary_clean →
  (∀ y x, pixel binary_clean y x ≠ Some FREE) →
  fill_gaps_px c MAX_GAP_PIXELS binary_clean = binary_clean.
Proof.
  intros Hb Hfree. apply grid_ext; [apply dims_fill_gaps_px|]. intros y x.
  destruct (pixel binary_clean y x) as [v|] eqn:Hv.
  - rewrite (pixel_fill_gaps_px c MAX_GAP_PIXELS binary_clean y x v Hv)
      by (by eapply binary_uint8).
    destruct (cleared c MAX_GAP_PIXELS binary_clean y x) eqn:Hcl; [|done].
    apply cleared_spec in Hcl as (k & Hk & Hg).
    apply elem_of_kernel_sizes in Hk as [Hk _].
    destruct (gated_candidate c MAX_GAP_PIXELS binary_clean k y x v)
      as [_ (dy & dx & _ & _ & Hf)]; [done|lia|done|done|].
    apply pixelZ_Some in Hf as (_ & _ & Hf). by apply Hfree in Hf.
  - destruct (pixel (fill_gaps_px _ _ _) y x) eqn:Hout; [|done].
    assert (is_Some (pixel binary_clean y x)) as [? ?]; [|congruence].
    apply (pixel_same_dims (fill_gaps_px c MAX_GAP_PIXELS binary_clean));
      [apply dims_fill_gaps_px|by eexists].
Qed.

(** X4. A grid without any FREE cell comes back as it is. *)
Theorem fill_gaps_without_free_space (c : constants) (MAX_GAP_PIXELS : Z)
    (binary_clean : grid) :
  binary binary_clean →
  (∀ y x, pixel binary_clean y x ≠ Some FREE) →
  fill_gaps_px c MAX_GAP_PIXELS binary_clean = binary_clean.
Proof. apply fill_gaps_px_no_free. Qed.

Lemma fill_gaps_without_free_space_witness :
  binary [[255; 255]; [255; 255]]%Z
  ∧ fill_gaps_px source_constants 4 [[255; 255]; [255; 255]]%Z
    = [[255; 255]; [255; 255]]%Z.
Proof.
  assert (Hb : binary [[255; 255]; [255; 255]]%Z).
  { unfold binary, FREE, OCCUPIED.
    repeat (apply Forall_cons; split); try apply Forall_nil; auto. }
  split; [exact Hb|].
  apply (fill_gaps_without_free_space source_constants 4 _ Hb).
  intros [|[|y]] [|[|x]]; vm_compute; discriminate.
Defined.

(** ** A larger bound frees at least as much *)

Lemma gated_mono c M M' inverted k y x :
  (0 ≤ M ≤ M')%Z →
  gated c M inverted k y x = true → gated c M' inverted k y x = true.
Proof.
  intros HM. rewrite !gated_spec. intros (i & Hi). exists i.
  destruct (cv2.connectedComponentsWithStats _) as [[num labels] stats].
  destruct Hi as (Hi & Hl & Hw & Ha). split; [done|]. split; [done|].
  split; [lia|]. etrans; [exact Ha|]. apply Z.pow_le_mono_l. lia.
Qed.

(** X5. A cell the stage frees with the bound [M] is freed with every larger
    bound [M']. *)
Theorem fill_gaps_monotone_in_bound (c : constants) (M M' : Z)
    (binary_clean : grid) (y x : nat) :
  binary binary_clean → (M ≤ M')%Z →
  pixel (fill_gaps_px c M binary_clean) y x = Some FREE →
  pixel (fill_gaps_px c M' binary_clean) y x = Some FREE.
Proof.
  intros Hb HM Hout.
  assert (is_Some (pixel binary_clean y x)) as [v Hv].
  { apply (pixel_same_dims (fill_gaps_px c M binary_clean));
      [apply dims_fill_gaps_px|by eexists]. }
  rewrite (pixel_fill_gaps_px c M binary_clean y x v Hv) in Hout
    by (by eapply binary_uint8).
  rewrite (pixel_fill_gaps_px c M' binary_clean y x v Hv)
    by (by eapply binary_uint8).
  destruct (cleared c M binary_clean y x) eqn:Hcl.
  - apply cleared_spec in Hcl as (k & Hk & Hg).
    apply elem_of_kernel_sizes in Hk as [Hk Hodd].
    assert (cleared c M' binary_clean y x = true) as ->; [|done].
    apply cleared_spec. exists k. split.
    + apply elem_of_kernel_sizes. split; [lia|done].
    + apply (gated_mono c M M'); [lia|done].
  - injection Hout as ->. by destruct (cleared c M' binary_clean y x).
Qed.

Lemma fill_gaps_monotone_in_bound_witness :
  binary lone_cell ∧ (4 ≤ 6)%Z
  ∧ pixel (fill_gaps_px source_constants 4 lone_cell) 2 3 = Some FREE
  ∧ pixel (fill_gaps_px source_constants 6 lone_cell) 2 3 = Some FREE.
Proof.
  assert (H4 : pixel (fill_gaps_px source_constants 4 lone_cell) 2 3
               = Some FREE) by (vm_compute; done).
  assert (Hle : (4 ≤ 6)%Z) by lia.
  split; [exact binary_lone_cell|]. split; [exact Hle|]. split; [exact H4|].
  exact (fill_gaps_monotone_in_bound source_constants 4 6 lone_cell 2 3
           binary_lone_cell Hle H4).
Defined.


(** ** The median filter brings no new intensity *)

Lemma elem_of_py_range a b i : i ∈ py.range a b ↔ (a ≤ i < b)%Z.
Proof.
  unfold py.range, py.range3. rewrite list_elem_of_fmap.
  replace (b - a + 1 - 1)%Z with (b - a)%Z by lia. rewrite Z.div_1_r.
  split.
  - intros (j & -> & Hj). apply elem_of_seq in Hj. lia.
  - intros Hi. exists (Z.to_nat (i - a)). split; [lia|].
    apply elem_of_seq. lia.
Qed.

Lemma median_elem (vs : list Z) : vs ≠ [] → cv2.median vs ∈ vs.
Proof.
  intros Hne. unfold cv2.median.
  assert (Hlen : length (merge_sort Z.le vs) = length vs)
    by (by rewrite merge_sort_Permutation).
  assert (0 < length vs) by (destruct vs; [done|simpl; lia]).
  destruct (lookup_lt_is_Some_2 (merge_sort Z.le vs) (length vs `div` 2))
    as [m Hm].
  { rewrite Hlen. apply Nat.div_lt; lia. }
  rewrite (nth_lookup_Some _ _ _ _ Hm).
  apply list_elem_of_lookup_2 in Hm.
  by rewrite merge_sort_Permutation in Hm.
Qed.

Lemma medianBlur_pixel_from_image (src : grid) (ksize : Z) (y x : nat)
    (v : Z) :
  (0 ≤ ksize)%Z →
  pixel (cv2.medianBlur src ksize) y x = Some v →
  ∃ y' x', pixel src y' x' = Some v.
Proof.
  intros Hk. unfold cv2.medianBlur. cbv zeta. rewrite pixel_gmapi.
  destruct (pixel src y x) as [v0|] eqn:Hv0; [|done]. simpl. intros [= <-].
  set (f := λ '(dy, dx),
         pixel src (cv2.clamp (length src) (Z.of_nat y + dy))
           (cv2.clamp (length (hd [] src)) (Z.of_nat x + dx))).
  assert (Hin : cv2.median (omap f (cv2.square_offsets ksize))
                ∈ omap f (cv2.square_offsets ksize)).
  { apply median_elem.
    assert (Hy : cv2.clamp (length src) (Z.of_nat y + 0) = y).
    { unfold pixel in Hv0. destruct (src !! y) eqn:Hrow; [|done].
      apply lookup_lt_Some in Hrow. unfold cv2.clamp. lia. }
    assert (Hx : cv2.clamp (length (hd [] src)) (Z.of_nat x + 0) ≤ x).
    { unfold cv2.clamp. lia. }
    assert (is_Some (f (0, 0)%Z)) as [u Hu].
    { unfold f. rewrite Hy. unfold pixel in Hv0 |- *.
      destruct (src !! y) as [row|]; [|done]. simpl in *.
      apply lookup_lt_is_Some. apply lookup_lt_Some in Hv0. lia. }
    assert (u ∈ omap f (cv2.square_offsets ksize)) as Hu'.
    { apply list_elem_of_omap. exists (0, 0)%Z. split; [|done].
      unfold cv2.square_offsets. cbv zeta.
      pose proof (Z.div_pos ksize 2).
      apply list_elem_of_bind. exists 0%Z. split.
      - apply list_elem_of_bind. exists 0%Z. split; [by left|].
        apply elem_of_py_range. lia.
      - apply elem_of_py_range. lia. }
    intros Hnil. rewrite Hnil in Hu'. by destruct (not_elem_of_nil _ Hu'). }
  apply list_elem_of_omap in Hin as ([dy dx] & _ & Hf). unfold f in Hf.
  eauto.
Qed.

(** X6. Every pixel of the filtered image is the intensity of some pixel of
    the image. *)
Theorem medianBlur_value_from_image (src : grid) (ksize : Z) (y x : nat)
    (v : Z) :
  (0 ≤ ksize)%Z →
  pixel (cv2.medianBlur src ksize) y x = Some v →
  ∃ y' x', pixel src y' x' = Some v.
Proof. apply medianBlur_pixel_from_image. Qed.

Lemma medianBlur_value_from_image_witness :
  (0 ≤ 3)%Z
  ∧ pixel (cv2.medianBlur dark_block 3) 4 4 = Some 0%Z
  ∧ ∃ y' x', pixel dark_block y' x' = Some 0%Z.
Proof.
  assert (H3 : (0 ≤ 3)%Z) by lia.
  assert (H : pixel (cv2.medianBlur dark_block 3) 4 4 = Some 0%Z)
    by (vm_compute; done).
  split; [exact H3|]. split; [exact H|].
  exact (medianBlur_value_from_image dark_block 3 4 4 0 H3 H).
Defined.


(** ** Images without an obstacle, and images without open space *)

Lemma pixel_full_like g v y x :
  pixel (full_like g v) y x = (λ _, v) <$> pixel g y x.
Proof. apply pixel_fmap. Qed.

Lemma dims_full_like g v : dims (full_like g v) = dims g.
Proof. apply dims_fmap. Qed.

Lemma full_like_full_like g u v : full_like (full_like g u) v = full_like g v.
Proof.
  apply grid_ext; [by rewrite !dims_full_like|]. intros y x.
  rewrite !pixel_full_like. by destruct (pixel g y x).
Qed.

Lemma binary_full_like g v : v = FREE ∨ v = OCCUPIED → binary (full_like g v).
Proof.
  intros Hv. apply binary_pixels. intros y x u. rewrite pixel_full_like.
  destruct (pixel g y x); [|done]. by intros [= <-].
Qed.

(** A grid of one shape with the same value everywhere. *)
Lemma full_like_ext (g g' : grid) v :
  dims g' = dims g → (∀ y x u, pixel g' y x = Some u → u = v) →
  g' = full_like g v.
Proof.
  intros Hd Hv. apply grid_ext; [by rewrite dims_full_like|]. intros y x.
  rewrite pixel_full_like.
  destruct (pixel g' y x) as [u|] eqn:Hu.
  - rewrite (Hv _ _ _ Hu).
    assert (is_Some (pixel g y x)) as [? ->]; [|done].
    apply (pixel_same_dims g'); [done|by eexists].
  - destruct (pixel g y x) eqn:Hg; [|done].
    assert (is_Some (pixel g' y x)) as [? ?]; [|congruence].
    apply (pixel_same_dims g); [done|by eexists].
Qed.

Lemma binarize_light img :
  (∀ y x v, pixel img y x = Some v → 1 < v)%Z →
  binarize img = full_like img FREE.
Proof.
  intros H. apply full_like_ext; [apply dims_binarize|]. intros y x u.
  unfold binarize, cv2.threshold_BINARY_INV. simpl. rewrite pixel_fmap.
  destruct (pixel img y x) as [v|] eqn:Hv; [|done]. simpl. intros [= <-].
  apply H in Hv. rewrite bool_decide_eq_true_2 by lia. done.
Qed.

Lemma binarize_dark img :
  (∀ y x v, pixel img y x = Some v → v ≤ 1)%Z →
  binarize img = full_like img OCCUPIED.
Proof.
  intros H. apply full_like_ext; [apply dims_binarize|]. intros y x u.
  unfold binarize, cv2.threshold_BINARY_INV. simpl. rewrite pixel_fmap.
  destruct (pixel img y x) as [v|] eqn:Hv; [|done]. simpl. intros [= <-].
  apply H in Hv. rewrite bool_decide_eq_false_2 by lia. done.
Qed.

Lemma anchor_in_kernel_offsets rows cols :
  (0 < rows)%Z → (0 < cols)%Z →
  (0, 0)%Z ∈ cv2.kernel_offsets (np.ones rows cols).
Proof.
  intros Hr Hc. apply elem_of_kernel_offsets_ones; [done|].
  pose proof (Z.div_pos rows 2). pose proof (Z.div_pos cols 2).
  pose proof (Z.div_lt rows 2). pose proof (Z.div_lt cols 2). lia.
Qed.

Lemma close_binary_free c g :
  (0 < median_kernel c)%Z → (0 < morph_kernel c)%Z →
  close_binary c (full_like g FREE) = full_like g FREE.
Proof.
  intros Hr Hc. rewrite <- (full_like_full_like g FREE FREE) at 2.
  apply full_like_ext; [apply dims_close_binary|]. intros y x u.
  unfold close_binary, cv2.morphologyEx_CLOSE. cbv zeta.
  set (kernel := np.ones (median_kernel c) (morph_kernel c)).
  assert (Hdil : ∀ y x u,
    pixel (cv2.dilate (full_like g FREE) kernel) y x = Some u → u = 0%Z).
  { intros y' x' u'. rewrite pixel_dilate.
    destruct (pixel (full_like g FREE) y' x'); [|done]. simpl. intros [= <-].
    rewrite foldr_max_binary.
    - rewrite bool_decide_eq_false_2; [done|]. intros Hin.
      apply elem_of_window in Hin as (dy & dx & _ & Hin).
      apply pixelZ_Some in Hin as (_ & _ & Hin).
      rewrite pixel_full_like in Hin. by destruct (pixel g _ _).
    - intros v. apply window_binary. apply binary_full_like. by left. }
  rewrite pixel_erode.
  destruct (pixel (cv2.dilate (full_like g FREE) kernel) y x) as [d|] eqn:Hd;
    [|done].
  simpl. intros [= <-]. apply Z.le_antisymm.
  - apply (foldr_min_le 255%Z). apply elem_of_window. exists 0%Z, 0%Z.
    split; [by apply anchor_in_kernel_offsets|].
    rewrite !Z.add_0_r, pixelZ_of_nat, Hd. f_equal. by eapply Hdil.
  - apply foldr_min_lower; [done|]. intros v Hv.
    apply elem_of_window in Hv as (dy & dx & _ & Hv).
    apply pixelZ_Some in Hv as (_ & _ & Hv). apply Hdil in Hv. by subst.
Qed.

Lemma close_binary_occupied c g :
  (0 < median_kernel c)%Z → Z.odd (median_kernel c) = true →
  Z.odd (morph_kernel c) = true →
  close_binary c (full_like g OCCUPIED) = full_like g OCCUPIED.
Proof.
  intros Hr Hro Hco. rewrite <- (full_like_full_like g OCCUPIED OCCUPIED) at 2.
  apply full_like_ext; [apply dims_close_binary|]. intros y x u Hu.
  assert (is_Some (pixel (full_like g OCCUPIED) y x)) as [v Hv].
  { apply (pixel_same_dims (close_binary c (full_like g OCCUPIED)));
      [apply dims_close_binary|by eexists]. }
  destruct (close_binary_lower c _ y x v Hr Hro Hco Hv) as (u' & Hu' & Hle).
  { rewrite pixel_full_like in Hv. destruct (pixel g y x); [|done].
    injection Hv as <-. done. }
  rewrite pixel_full_like in Hv. destruct (pixel g y x); [|done].
  injection Hv as <-.
  assert (Hb : binary (close_binary c (full_like g OCCUPIED))).
  { apply binary_close_binary, binary_full_like. by right. }
  destruct (binary_pixel _ _ _ _ Hb Hu) as [-> | ->]; [|done].
  rewrite Hu in Hu'. injection Hu' as <-. unfold OCCUPIED, FREE in Hle. lia.
Qed.

Lemma fill_gaps_px_free c M g :
  fill_gaps_px c M (full_like g FREE) = full_like g FREE.
Proof.
  rewrite <- (full_like_full_like g FREE FREE) at 2.
  apply full_like_ext; [apply dims_fill_gaps_px|]. intros y x u Hu.
  assert (is_Some (pixel (full_like g FREE) y x)) as [v Hv].
  { apply (pixel_same_dims (fill_gaps_px c M (full_like g FREE)));
      [apply dims_fill_gaps_px|by eexists]. }
  assert (v = FREE) as ->.
  { rewrite pixel_full_like in Hv. destruct (pixel g y x); [|done].
    by injection Hv. }
  apply (free_stays_free c M) in Hv. congruence.
Qed.

Lemma fill_gaps_px_occupied c M g :
  fill_gaps_px c M (full_like g OCCUPIED) = full_like g OCCUPIED.
Proof.
  apply fill_gaps_px_no_free; [apply binary_full_like; by right|].
  intros y x. rewrite pixel_full_like. destruct (pixel g y x); [|done].
  simpl. unfold FREE, OCCUPIED. discriminate.
Qed.

Lemma medianBlur_bounds img y x v (P : Z → Prop) :
  (∀ y x v, pixel img y x = Some v → P v) →
  pixel (cv2.medianBlur img 3) y x = Some v → P v.
Proof.
  intros H Hv.
  destruct (medianBlur_pixel_from_image img 3 y x v) as (y' & x' & Hv');
    [lia|done|]. by eapply H.
Qed.

(** X7. A single-channel image all of whose intensities are above 1 (no
    obstacle) comes back all FREE; one all of whose intensities are at most
    1 (no open space) comes back all OCCUPIED. *)
Theorem process_map_uniform {dir} (img : grid) (debug : bool)
    (w : world dir) (input_path : string) (output_dir : option string) :
  ((∀ y x v, pixel img y x = Some v → 1 < v)%Z →
   returned (process_image source_constants (Some (Gray8 img)) debug)
   = inr (full_like img FREE)
   ∧ (loads w input_path output_dir img →
      (process_map w input_path output_dir debug).2
      = inr (full_like img FREE)))
  ∧ ((∀ y x v, pixel img y x = Some v → v ≤ 1)%Z →
     returned (process_image source_constants (Some (Gray8 img)) debug)
     = inr (full_like img OCCUPIED)
     ∧ (loads w input_path output_dir img →
        (process_map w input_path output_dir debug).2
        = inr (full_like img OCCUPIED))).
Proof.
  assert (Hmap : ∀ out,
    returned (process_image source_constants (Some (Gray8 img)) debug)
    = inr out →
    returned (process_image source_constants (Some (Gray8 img)) debug)
    = inr out
    ∧ (loads w input_path output_dir img →
       (process_map w input_path output_dir debug).2 = inr out)).
  { intros out Hout. split; [done|]. intros Hl. unfold process_map.
    by rewrite (process_map_with_loads _ w _ _ _ img Hl). }
  split; intros H; apply Hmap; rewrite process_image_source.
  - rewrite binarize_light
      by (intros y x v; apply (medianBlur_bounds img y x v (λ v, 1 < v)%Z H)).
    rewrite <- (full_like_full_like img 0 FREE) at 1.
    rewrite close_binary_free by done. rewrite fill_gaps_px_free.
    rewrite full_like_full_like.
    f_equal. apply full_like_ext.
    + by rewrite dims_full_like, dims_medianBlur.
    + intros y x u. rewrite pixel_full_like.
      destruct (pixel _ y x); [|done]. by intros [= <-].
  - rewrite binarize_dark
      by (intros y x v; apply (medianBlur_bounds img y x v (λ v, v ≤ 1)%Z H)).
    rewrite close_binary_occupied by done. rewrite fill_gaps_px_occupied.
    f_equal. apply full_like_ext.
    + by rewrite dims_full_like, dims_medianBlur.
    + intros y x u. rewrite pixel_full_like.
      destruct (pixel _ y x); [|done]. by intros [= <-].
Qed.

Lemma process_map_uniform_witness :
  (∀ y x v, pixel (blank 2 3) y x = Some v → v ≤ 1)%Z
  ∧ returned (process_image source_constants (Some (Gray8 (blank 2 3))) false)
    = inr (full_like (blank 2 3) OCCUPIED).
Proof.
  assert (H : (∀ y x v, pixel (blank 2 3) y x = Some v → v ≤ 1)%Z).
  { intros y x v Hv. apply pixel_blank in Hv as ->. unfold FREE. lia. }
  split; [exact H|].
  exact (proj1 (proj2 (process_map_uniform (blank 2 3) false
                         sample_world "map1.png" None) H)).
Defined.


(** ** When [process_map] raises *)

(** The four ways a call of [process_map] can go. *)
Lemma process_map_cases {dir} (w : world dir) input_path output_dir debug :
  process_map w input_path output_dir debug
  = if mkdir w (output_directory w input_path output_dir) then
      match imread w input_path with
      | Some (Gray8 img) =>
          (Mkdir (output_directory w input_path output_dir)
           :: (if debug
               then [Print (Loaded_image_with_shape
                              (decoded_shape (Gray8 img)))]
               else []),
           inr (fill_gaps_px source_constants 4
                  (close_binary source_constants
                     (binarize (cv2.medianBlur img 3)))))
      | Some (Other_array shape reaches_line_40) =>
          (Mkdir (output_directory w input_path output_dir)
           :: (if debug then [Print (Loaded_image_with_shape shape)]
               else []),
           inl cv2_error)
      | None =>
          ([Mkdir (output_directory w input_path output_dir)],
           inl FileNotFoundError)
      end
    else ([Mkdir (output_directory w input_path output_dir)], inl OSError).
Proof.
  unfold process_map, process_map_with.
  destruct (mkdir w _); [|done].
  destruct (imread w input_path) as [[img|shape reaches]|]; [| |done].
  - unfold process_image. rewrite fill_gaps_source. by destruct debug.
  - unfold process_image. by destruct debug, reaches.
Qed.



(** ** The files the script writes *)

Lemma string_app_nil_r (s : string) : s +:+ EmptyString = s.
Proof.
  induction s as [|a s IH]; [done|].
  change (String a (s +:+ EmptyString) = String a s). by rewrite IH.
Qed.

Lemma rfind_dot_split (s : string) (i : nat) :
  pathlib.rfind_dot s = Some i →
  ∃ rest, s = String.substring 0 i s +:+ String "." rest.
Proof.
  revert i. induction s as [|a s IH]; intros i; [done|].
  cbn [pathlib.rfind_dot].
  destruct (pathlib.rfind_dot s) as [j|].
  - intros [= <-]. destruct (IH j eq_refl) as [rest Hrest].
    exists rest.
    change (String a s
            = String a (String.substring 0 j s +:+ String "." rest)).
    by rewrite <- Hrest.
  - destruct (Ascii.eqb a ".") eqn:Ha; [|done]. intros [= <-].
    apply Ascii.eqb_eq in Ha as ->. by exists s.
Qed.

(** A name is its stem followed by nothing or by a suffix that starts with
    a dot. *)
Lemma stem_split (name : string) :
  ∃ suffix, name = pathlib.stem name +:+ suffix
            ∧ (suffix = EmptyString ∨ ∃ rest, suffix = String "." rest).
Proof.
  unfold pathlib.stem.
  destruct (pathlib.rfind_dot name) as [i|] eqn:Hi.
  - destruct (_ && _).
    + destruct (rfind_dot_split name i Hi) as [rest Hrest].
      exists (String "." rest). split; [done|]. right. by exists rest.
    + exists EmptyString. split; [by rewrite string_app_nil_r|by left].
  - exists EmptyString. split; [by rewrite string_app_nil_r|by left].
Qed.

Lemma stem_app_ne (name : string) (a : ascii) (t : string) :
  a ≠ "."%char → pathlib.stem name +:+ String a t ≠ name.
Proof.
  intros Ha Heq. destruct (stem_split name) as (suffix & Hname & Hsuffix).
  rewrite Hname in Heq at 2. apply (inj (String.app _)) in Heq.
  destruct Hsuffix as [-> | [rest ->]]; [done|]. by injection Heq.
Qed.


Lemma canny_without_debug cv img :
  ∃ result, canny cv img false = ([], inr result).
Proof.
  unfold canny. destruct (canny_lines cv img); eexists; reflexivity.
Qed.

Section script_facts.
Context {dir : Type} (w : world dir) (cv : cv2_edges) (args : arguments).

(** The four ways a run can go. *)
Lemma main_run :
  if mkdir w (created_dir w args) then
    match imread w (input_path args) with
    | Some (Gray8 img) =>
        ∃ processed edges,
          (process_map w (input_path args) (output_dir args) (debug args)).2
          = inr processed
          ∧ returned (canny cv (Gray processed) false) = inr edges
          ∧ main w cv args =
            (Mkdir (created_dir w args)
             :: (if debug args
                 then [Print (Loaded_image_with_shape
                                (decoded_shape (Gray8 img)))]
                 else [])
             ++ [Imwrite (written_dir w args,
                          pathlib.stem (Path_name w (input_path args))
                          +:+ "_processed.png") (Gray processed);
                 Imwrite (written_dir w args,
                          pathlib.stem (Path_name w (input_path args))
                          +:+ "_edges.png") (Color edges)]
             ++ (if debug args
                 then [Print_processed_saved
                         (written_dir w args,
                          pathlib.stem (Path_name w (input_path args))
                          +:+ "_processed.png");
                       Print_edges_saved
                         (written_dir w args,
                          pathlib.stem (Path_name w (input_path args))
                          +:+ "_edges.png")]
                 else []),
             inr tt)
    | Some (Other_array shape reaches_line_40) =>
        main w cv args
        = (Mkdir (created_dir w args)
           :: (if debug args then [Print (Loaded_image_with_shape shape)]
               else []),
           inl cv2_error)
    | None =>
        main w cv args
        = ([Mkdir (created_dir w args)], inl FileNotFoundError)
    end
  else main w cv args = ([Mkdir (created_dir w args)], inl OSError).
Proof.
  unfold main. rewrite process_map_cases.
  fold (created_dir w args).
  destruct (mkdir w (created_dir w args)); [|done].
  destruct (imread w (input_path args)) as [[img|shape reaches]|];
    [|done|done].
  set (processed := fill_gaps_px _ _ _).
  destruct (canny_without_debug cv (Gray processed)) as [edges Hedges].
  exists processed, edges. rewrite Hedges. split; [done|]. split; [done|].
  by destruct (debug args).
Qed.

Lemma main_imwrite_inv (p : dir * string) (img : image) :
  Imwrite p img ∈ (main w cv args).1 →
  p.1 = written_dir w args
  ∧ (p.2 = pathlib.stem (Path_name w (input_path args)) +:+ "_processed.png"
     ∨ p.2 = pathlib.stem (Path_name w (input_path args)) +:+ "_edges.png").
Proof.
  intros Hin. pose proof main_run as Hrun.
  destruct (mkdir w (created_dir w args)).
  2: { rewrite Hrun in Hin. simpl in Hin.
       apply list_elem_of_singleton in Hin. done. }
  destruct (imread w (input_path args)) as [[img0|shape reaches]|].
  - destruct Hrun as (processed & edges & _ & _ & Hmain).
    rewrite Hmain in Hin. simpl in Hin.
    destruct (debug args); simpl in Hin;
      rewrite !elem_of_cons, elem_of_nil in Hin;
      destruct_or!; simplify_eq; simpl; auto.
  - rewrite Hrun in Hin. simpl in Hin.
    destruct (debug args); simpl in Hin;
      rewrite !elem_of_cons, elem_of_nil in Hin;
      destruct_or!; simplify_eq.
  - rewrite Hrun in Hin. simpl in Hin.
    apply list_elem_of_singleton in Hin. done.
Qed.

Lemma main_mkdir_inv (d : dir) :
  Mkdir d ∈ (main w cv args).1 → d = created_dir w args.
Proof.
  intros Hd. pose proof main_run as Hrun.
  destruct (mkdir w (created_dir w args)).
  2: { rewrite Hrun in Hd. simpl in Hd.
       apply list_elem_of_singleton in Hd. by injection Hd. }
  destruct (imread w (input_path args)) as [[img0|shape reaches]|].
  - destruct Hrun as (processed & edges & _ & _ & Hmain).
    rewrite Hmain in Hd. simpl in Hd.
    destruct (debug args); simpl in Hd;
      rewrite !elem_of_cons, elem_of_nil in Hd;
      destruct_or!; by simplify_eq.
  - rewrite Hrun in Hd. simpl in Hd.
    destruct (debug args); simpl in Hd;
      rewrite !elem_of_cons, elem_of_nil in Hd;
      destruct_or!; by simplify_eq.
  - rewrite Hrun in Hd. simpl in Hd.
    apply list_elem_of_singleton in Hd. by injection Hd.
Qed.

End script_facts.


Section script_properties.
Context {dir : Type} (w : world dir) (cv : cv2_edges) (args : arguments).


(** X10. Every file a run writes is named after the stem of the input, lies in
    one directory, and is not named like the input: the script does not
    overwrite the file it read. The two names differ. *)
Theorem main_output_names (p : dir * string) (img : image) :
  Imwrite p img ∈ (main w cv args).1 →
  p.1 = written_dir w args
  ∧ (p.2 = pathlib.stem (Path_name w (input_path args)) +:+ "_processed.png"
     ∨ p.2 = pathlib.stem (Path_name w (input_path args)) +:+ "_edges.png")
  ∧ p.2 ≠ Path_name w (input_path args)
  ∧ pathlib.stem (Path_name w (input_path args)) +:+ "_processed.png"
    ≠ pathlib.stem (Path_name w (input_path args)) +:+ "_edges.png".
Proof.
  intros Hin. pose proof (main_imwrite_inv w cv args p img Hin) as Hnames.
  destruct Hnames as [Hdir Hname]. split; [done|]. split; [done|]. split.
  - destruct Hname as [-> | ->]; by apply stem_app_ne.
  - intros Heq. apply (inj (String.app _)) in Heq. done.
Qed.

(** X11. The only line [process_map] or [canny] prints in a run is the shape
    of the image, and only with [--debug]: [canny] is called without the flag,
    so the number of lines is never reported. *)
Theorem main_never_reports_lines (m : message) :
  Print m ∈ (main w cv args).1 →
  debug args = true
  ∧ ∃ img, imread w (input_path args) = Some img
           ∧ m = Loaded_image_with_shape (decoded_shape img).
Proof.
  intros Hin. pose proof (main_run w cv args) as Hrun.
  destruct (mkdir w (created_dir w args)).
  2: { rewrite Hrun in Hin. simpl in Hin.
       apply list_elem_of_singleton in Hin. done. }
  destruct (imread w (input_path args)) as [[img0|shape reaches]|].
  - destruct Hrun as (processed & edges & _ & _ & Hmain).
    rewrite Hmain in Hin. simpl in Hin.
    destruct (debug args); simpl in Hin;
      rewrite !elem_of_cons, elem_of_nil in Hin;
      destruct_or!; simplify_eq.
    split; [done|by eexists].
  - rewrite Hrun in Hin. simpl in Hin.
    destruct (debug args); simpl in Hin;
      rewrite !elem_of_cons, elem_of_nil in Hin;
      destruct_or!; simplify_eq.
    split; [done|by eexists].
  - rewrite Hrun in Hin. simpl in Hin.
    apply list_elem_of_singleton in Hin. done.
Qed.

(** X12. The files are written into the directory the run made, except when
    [--output_dir] is the empty string: then the directory made is the one of
    the empty path and the files go next to the input. *)
Theorem main_writes_into_created_dir (d : dir) (p : dir * string)
    (img : image) :
  Mkdir d ∈ (main w cv args).1 →
  Imwrite p img ∈ (main w cv args).1 →
  d = created_dir w args
  ∧ (output_dir args ≠ Some EmptyString → p.1 = d)
  ∧ (output_dir args = Some EmptyString →
     d = Path_dir w EmptyString ∧ p.1 = Path_parent w (input_path args)).
Proof.
  intros Hd Hp.
  destruct (main_imwrite_inv w cv args p img Hp) as [Hp1 _].
  rewrite (main_mkdir_inv w cv args d Hd), Hp1.
  split; [done|]. unfold written_dir, created_dir.
  destruct (output_dir args) as [s|]; [|done].
  case_bool_decide as Hs; [subst s|]; split; try done.
  intros [= ->]. done.
Qed.

End script_properties.


(** The run of the sample: the dark block is removed by the median filter
    and the closing, so both files are blank. *)
Lemma main_sample :
  main sample_world reference.cv sample_arguments
  = ([Mkdir "out"; Print (Loaded_image_with_shape [9; 9]);
      Imwrite ("out", "map1_processed.png") (Gray (blank 9 9));
      Imwrite ("out", "map1_edges.png")
        (Color (replicate 9 (replicate 9 (0, 0, 0)%Z)));
      Print_processed_saved ("out", "map1_processed.png");
      Print_edges_saved ("out", "map1_edges.png")],
     inr tt).
Proof. vm_compute. reflexivity. Qed.

Lemma main_output_names_witness :
  Imwrite ("out", "map1_processed.png") (Gray (blank 9 9))
  ∈ (main sample_world reference.cv sample_arguments).1
  ∧ "map1_processed.png" ≠ "map1.png".
Proof.
  assert (H : Imwrite ("out", "map1_processed.png") (Gray (blank 9 9))
              ∈ (main sample_world reference.cv sample_arguments).1).
  { rewrite main_sample. simpl. rewrite !elem_of_cons. auto. }
  split; [exact H|].
  exact (proj1 (proj2 (proj2
    (main_output_names sample_world reference.cv sample_arguments
       ("out", "map1_processed.png") (Gray (blank 9 9)) H)))).
Defined.

Lemma main_never_reports_lines_witness :
  Print (Loaded_image_with_shape [9; 9])
  ∈ (main sample_world reference.cv sample_arguments).1
  ∧ debug sample_arguments = true.
Proof.
  assert (H : Print (Loaded_image_with_shape [9; 9])
              ∈ (main sample_world reference.cv sample_arguments).1).
  { rewrite main_sample. simpl. rewrite !elem_of_cons. auto. }
  split; [exact H|].
  exact (proj1 (main_never_reports_lines sample_world reference.cv
                  sample_arguments _ H)).
Defined.

Lemma main_writes_into_created_dir_witness :
  Mkdir "out" ∈ (main sample_world reference.cv sample_arguments).1
  ∧ Imwrite ("out", "map1_edges.png")
      (Color (replicate 9 (replicate 9 (0, 0, 0)%Z)))
    ∈ (main sample_world reference.cv sample_arguments).1
  ∧ "out" = created_dir sample_world sample_arguments.
Proof.
  assert (Hd : Mkdir "out"
               ∈ (main sample_world reference.cv sample_arguments).1).
  { rewrite main_sample. simpl. rewrite !elem_of_cons. auto. }
  assert (Hp : Imwrite ("out", "map1_edges.png")
                 (Color (replicate 9 (replicate 9 (0, 0, 0)%Z)))
               ∈ (main sample_world reference.cv sample_arguments).1).
  { rewrite main_sample. simpl. rewrite !elem_of_cons. auto 10. }
  split; [exact Hd|]. split; [exact Hp|].
  exact (proj1 (main_writes_into_created_dir sample_world reference.cv
                  sample_arguments _ _ _ Hd Hp)).
Defined.


(** Three more runs of the sample: a map that decodes, a colour image, and
    the script on the colour image. *)
Lemma process_map_returns_binary_witness :
  loads sample_world "map1.png" None dark_block
  ∧ ∃ out, (process_map sample_world "map1.png" None true).2 = inr out.
Proof.
  assert (Hl : loads sample_world "map1.png" None dark_block) by done.
  split; [exact Hl|].
  exact (proj1 (process_map_returns_binary sample_world "map1.png" None true)
           dark_block Hl).
Defined.


